(** * Box utilities of yolox/utils/boxes.py

    A shallow embedding of the bounding-box helpers ([filter_box],
    [postprocess], [bboxes_iou], [matrix_iou], [adjust_box_anns],
    [adjust_lmks_anns], [xyxy2xywh], [xyxy2cxcywh]) together with the
    properties the specification states about them.

    The Python code is polymorphic in the element type of its arrays, so the
    embedding is written once over a class [Scalar] of element arithmetics and
    instantiated twice: with exact rationals ([Q]) and with IEEE binary64
    ([float], numpy's default element type).

    A property stated over [Q] is a property of the computation in exact
    arithmetic: it leaves rounding, overflow, underflow and NaN out, and a
    quotient whose denominator is 0 is 0 there, where binary64 gives NaN or
    an infinity.  Where binary64 breaks such a property on an input, the
    input is evaluated in the binary64 instance next to it.  A property
    stated over every [Scalar] holds in binary64 as it stands.

    Torch tensors carry in addition the kind of their element type,
    floating-point or integer, which decides whether [bboxes_iou] can divide
    in place. *)

From Stdlib Require Import QArith Qminmax Lqa Uint63 PrimFloat.
From stdpp Require Import base option list gmap.

Set Warnings "-inexact-float".

(** ** Element arithmetic *)

Class Scalar (F : Type) := {
  zero : F;
  one : F;
  two : F;
  half : F;                     (* the literal 0.5 *)
  eps : F;                      (* the literal 1e-12 *)
  neg_one : F;                  (* the literal -1 *)
  add : F -> F -> F;
  sub : F -> F -> F;
  mul : F -> F -> F;
  div : F -> F -> F;
  maximum : F -> F -> F;        (* torch.max / np.maximum, elementwise *)
  minimum : F -> F -> F;        (* torch.min / np.minimum, elementwise *)
  lt : F -> F -> bool;
  le : F -> F -> bool;
  eqb : F -> F -> bool;
  of_nat : nat -> F;            (* index.float() *)
}.

Definition gt {F} `{Scalar F} (x y : F) : bool := lt y x.
Definition ge {F} `{Scalar F} (x y : F) : bool := le y x.
Definition of_bool {F} `{Scalar F} (b : bool) : F := if b then one else zero.

(** NaN is the one value that is not equal to itself. *)
Definition isnan {F} `{Scalar F} (x : F) : bool := negb (eqb x x).

Declare Scope scalar_scope.
Delimit Scope scalar_scope with S.
Infix "+" := add : scalar_scope.
Infix "-" := sub : scalar_scope.
Infix "*" := mul : scalar_scope.
Infix "/" := div : scalar_scope.

(** Exact rational arithmetic. *)
Definition Qlt_bool (x y : Q) : bool := negb (Qle_bool y x).

#[export] Instance Q_scalar : Scalar Q := {|
  zero := 0%Q; one := 1%Q; two := 2%Q; half := (1 # 2)%Q;
  eps := (1 # 1000000000000)%Q; neg_one := (-1)%Q;
  add := Qplus; sub := Qminus; mul := Qmult; div := Qdiv;
  maximum := Qmax; minimum := Qmin;
  lt := Qlt_bool; le := Qle_bool; eqb := Qeq_bool;
  of_nat := fun n => inject_Z (Z.of_nat n);
|}.

(** IEEE binary64.  Both numpy's and torch's elementwise maximum and minimum
    return NaN as soon as one argument is NaN. *)
Definition fmax (x y : float) : float :=
  if PrimFloat.is_nan x then x
  else if PrimFloat.is_nan y then y
  else if PrimFloat.ltb x y then y else x.

Definition fmin (x y : float) : float :=
  if PrimFloat.is_nan x then x
  else if PrimFloat.is_nan y then y
  else if PrimFloat.ltb y x then y else x.

#[export] Instance binary64 : Scalar float := {|
  zero := 0%float; one := 1%float; two := 2%float; half := 0.5%float;
  eps := 1e-12%float; neg_one := (-1)%float;
  add := PrimFloat.add; sub := PrimFloat.sub;
  mul := PrimFloat.mul; div := PrimFloat.div;
  maximum := fmax; minimum := fmin;
  lt := PrimFloat.ltb; le := PrimFloat.leb; eqb := PrimFloat.eqb;
  of_nat := fun n => PrimFloat.of_uint63 (Uint63.of_Z (Z.of_nat n));
|}.

(** ** Exceptions *)

Inductive exn : Set :=
| IndexError
| ValueError
| RuntimeError.

Inductive result (A : Type) : Type :=
| Ok (a : A)
| Raise (e : exn).
Arguments Ok {A} a.
Arguments Raise {A} e.

Definition rbind {A B} (r : result A) (k : A -> result B) : result B :=
  match r with
  | Ok a => k a
  | Raise e => Raise e
  end.

Declare Scope result_scope.
Delimit Scope result_scope with res.
Notation "'let?' x := r 'in' k" := (rbind r (fun x => k))
  (at level 10, x name, r at level 100, k at level 200) : result_scope.

(** ** Two-dimensional arrays

    A 2-D array keeps its column count next to its rows, because
    [shape[1]] is defined (and checked by the code) even when there is no
    row at all. *)

Section Arrays.
Context {F : Type} `{Scalar F}.

Record Mat : Type := mkMat { ncols : nat; rows : list (list F) }.

Definition wf_mat (m : Mat) : Prop :=
  Forall (fun r => length r = ncols m) (rows m).

Definition nrows (m : Mat) : nat := length (rows m).

(** [m[:, j]]: indexing a column past [shape[1]] raises IndexError. *)
Definition column (j : nat) (m : Mat) : result (list F) :=
  if (j <? ncols m)%nat
  then Ok (map (fun r => nth j r zero) (rows m))
  else Raise IndexError.

(** [m[keep]] for a boolean vector [keep] with one entry per row. *)
Fixpoint mask_select {A} (keep : list bool) (l : list A) : list A :=
  match keep, l with
  | k :: keep', x :: l' =>
      if k then x :: mask_select keep' l' else mask_select keep' l'
  | _, _ => []
  end.

(** torch.prod / np.prod along an axis. *)
Definition prod (l : list F) : F := fold_left mul l one.

(** *** filter_box *)

Definition filter_box (output : Mat) (scale_range : F * F) : result Mat :=
  let '(min_scale, max_scale) := scale_range in
  (let? c2 := column 2 output in
   let? c0 := column 0 output in
   let w := zip_with sub c2 c0 in
   let? c3 := column 3 output in
   let? c1 := column 1 output in
   let h := zip_with sub c3 c1 in
   let keep :=
     zip_with andb
       (map (fun a => gt a (min_scale * min_scale)%S) (zip_with mul w h))
       (map (fun a => lt a (max_scale * max_scale)%S) (zip_with mul w h)) in
   Ok (mkMat (ncols output) (mask_select keep (rows output))))%res.

(** [m[:, j] = v], in place. *)
Definition set_column (j : nat) (v : list F) (m : Mat) : result Mat :=
  if (j <? ncols m)%nat
  then Ok (mkMat (ncols m) (zip_with (fun r x => <[j := x]> r) (rows m) v))
  else Raise IndexError.

(** *** xyxy2xywh, xyxy2cxcywh

    Both rewrite the caller's buffer column by column and return it; the
    model threads the buffer through the assignments in program order. *)

Definition xyxy2xywh (bboxes : Mat) : result Mat :=
  (let? c2 := column 2 bboxes in
   let? c0 := column 0 bboxes in
   let? bboxes := set_column 2 (zip_with sub c2 c0) bboxes in
   let? c3 := column 3 bboxes in
   let? c1 := column 1 bboxes in
   let? bboxes := set_column 3 (zip_with sub c3 c1) bboxes in
   Ok bboxes)%res.

Definition xyxy2cxcywh (bboxes : Mat) : result Mat :=
  (let? c2 := column 2 bboxes in
   let? c0 := column 0 bboxes in
   let? bboxes := set_column 2 (zip_with sub c2 c0) bboxes in
   let? c3 := column 3 bboxes in
   let? c1 := column 1 bboxes in
   let? bboxes := set_column 3 (zip_with sub c3 c1) bboxes in
   let? c0 := column 0 bboxes in
   let? c2 := column 2 bboxes in
   let? bboxes :=
     set_column 0 (zip_with add c0 (map (fun w => w * half)%S c2)) bboxes in
   let? c1 := column 1 bboxes in
   let? c3 := column 3 bboxes in
   let? bboxes :=
     set_column 1 (zip_with add c1 (map (fun h => h * half)%S c3)) bboxes in
   Ok bboxes)%res.

(** The inverse reconstructions the specification pairs with the two
    conversions: [x2 = x1 + w], [y2 = y1 + h], and
    [x1 = cx - w/2], [y1 = cy - h/2], [x2 = cx + w/2], [y2 = cy + h/2]. *)
Definition xywh_corners (r : list F) : list F :=
  let x1 := nth 0 r zero in let y1 := nth 1 r zero in
  let w := nth 2 r zero in let h := nth 3 r zero in
  [x1; y1; (x1 + w)%S; (y1 + h)%S].

Definition cxcywh_corners (r : list F) : list F :=
  let cx := nth 0 r zero in let cy := nth 1 r zero in
  let w := nth 2 r zero in let h := nth 3 r zero in
  [(cx - w / two)%S; (cy - h / two)%S; (cx + w / two)%S; (cy + h / two)%S].

(** [stride2 f g r] applies [f] at the even and [g] at the odd positions of
    [r]: the two strided slices [0::2] and [1::2]. *)
Fixpoint stride2 (f g : F -> F) (r : list F) : list F :=
  match r with
  | [] => []
  | x :: r' => f x :: stride2 g f r'
  end.

(** *** adjust_box_anns *)

(** [np.clip(v, lo, hi)] *)
Definition clip (v lo hi : F) : F := minimum (maximum v lo) hi.

Definition adjust_box_anns (bbox : Mat)
    (scale_ratio padw padh w_max h_max : F) : Mat :=
  let b1 :=
    map (stride2 (fun x => clip (x * scale_ratio + padw)%S zero w_max) id)
      (rows bbox) in
  mkMat (ncols bbox)
    (map (stride2 id (fun y => clip (y * scale_ratio + padh)%S zero h_max))
       b1).

(** *** adjust_lmks_anns *)

(** One iteration of the inner loop: point [k] of a row. *)
Definition check_point (w_max h_max : F) (row : list F) (k : nat) : list F :=
  let x := nth (2 * k) row zero in
  let y := nth (2 * k + 1) row zero in
  if lt x zero || lt y zero || gt x w_max || gt y h_max
  then <[2 * k + 1 := neg_one]> (<[2 * k := neg_one]> row)
  else row.

Definition check_row (w_max h_max : F) (row : list F) : list F :=
  fold_left (check_point w_max h_max) (seq 0 (length row / 2)) row.

(** The outer loop; [points.reshape(-1, 2)] raises ValueError on a row of
    odd length. *)
Fixpoint check_rows (w_max h_max : F) (l : list (list F))
  : result (list (list F)) :=
  match l with
  | [] => Ok []
  | row :: l' =>
      if Nat.even (length row)
      then (let? rest := check_rows w_max h_max l' in
            Ok (check_row w_max h_max row :: rest))%res
      else Raise ValueError
  end.

(** Returns the caller's array as the call leaves it (lines 167-168 write
    into it) together with the array the function returns, which is a new
    one from line 169 on. *)
Definition adjust_lmks_anns (landmarks : Mat)
    (scale_ratio padw padh w_max h_max : F) : result (Mat * Mat) :=
  let mask_landmarks := map (map (fun v => gt v zero)) (rows landmarks) in
  let l1 :=
    map (stride2 (fun x => x * scale_ratio + padw)%S id) (rows landmarks) in
  let l2 := map (stride2 id (fun y => y * scale_ratio + padh)%S) l1 in
  let l3 :=
    zip_with
      (zip_with (fun v m => v * of_bool m + of_bool m - one)%S)
      l2 mask_landmarks in
  (let? l4 := check_rows w_max h_max l3 in
   Ok (mkMat (ncols landmarks) l2, mkMat (ncols landmarks) l4))%res.

(** *** matrix_iou

    [lo] and [hi] are the slices [[:, :2]] and [[:, 2:]]; [outer f a b] is
    the broadcast of [f] over [a[:, None, :]] and [b].  On arrays that do
    not have four columns numpy broadcasts or fails depending on the
    widths; the elementwise [zip_with] is exact on four columns, which is
    where the properties below are stated. *)
Definition lo (m : list (list F)) : list (list F) := map (take 2) m.
Definition hi (m : list (list F)) : list (list F) := map (drop 2) m.

Definition outer {A B C} (f : A -> B -> C) (a : list A) (b : list B)
  : list (list C) :=
  map (fun x => map (fun y => f x y) b) a.

Definition zip3 {A B C} (f : A -> B -> C)
  : list (list (list A)) -> list (list (list B)) -> list (list (list C)) :=
  zip_with (zip_with (zip_with f)).

Definition zip2 {A B C} (f : A -> B -> C)
  : list (list A) -> list (list B) -> list (list C) :=
  zip_with (zip_with f).

Definition all_true (l : list bool) : bool := forallb id l.

Definition matrix_iou (a b : Mat) : Mat :=
  let lt_ := outer (zip_with maximum) (lo (rows a)) (lo (rows b)) in
  let rb := outer (zip_with minimum) (hi (rows a)) (hi (rows b)) in
  let area_i :=
    zip2 (fun p (m : bool) => p * of_bool m)%S
      (map (map prod) (zip3 sub rb lt_))
      (map (map all_true) (zip3 lt lt_ rb)) in
  let area_a := map prod (zip2 sub (hi (rows a)) (lo (rows a))) in
  let area_b := map prod (zip2 sub (hi (rows b)) (lo (rows b))) in
  mkMat (nrows b)
    (zip2 div area_i
       (map (map (fun u => u + eps)%S)
          (zip2 sub (outer add area_a area_b) area_i))).

End Arrays.

Arguments Mat F : clear implicits.

(** ** Non-maximum suppression *)

Section NMS.
Context {F : Type} `{Scalar F}.

(** Modelled from the spec: [torchvision.ops.nms] and
    [torchvision.ops.batched_nms] are primitives of an external library
    and their code is not part of the repository.  The model follows the
    contract of sections 4.2 (steps 6 and 7) and 4.3: candidates are
    sorted by score, descending, ties in original index order; the highest
    remaining candidate is selected and every unselected candidate whose
    IoU with it exceeds the threshold is suppressed, until none remains;
    the grouped variant only lets candidates of equal class id suppress
    each other.  The result is the list of selected indices in selection
    order. *)
Record cand : Type := mkCand {
  c_idx : nat; c_box : list F; c_score : F; c_cls : F
}.

Definition box_iou (p q : list F) : F :=
  let w :=
    maximum (minimum (nth 2 p zero) (nth 2 q zero)
             - maximum (nth 0 p zero) (nth 0 q zero))%S zero in
  let h :=
    maximum (minimum (nth 3 p zero) (nth 3 q zero)
             - maximum (nth 1 p zero) (nth 1 q zero))%S zero in
  let area_p :=
    ((nth 2 p zero - nth 0 p zero) * (nth 3 p zero - nth 1 p zero))%S in
  let area_q :=
    ((nth 2 q zero - nth 0 q zero) * (nth 3 q zero - nth 1 q zero))%S in
  (w * h / (area_p + area_q - w * h))%S.

Fixpoint insert_desc (c : cand) (l : list cand) : list cand :=
  match l with
  | [] => [c]
  | d :: l' =>
      if gt (c_score d) (c_score c) then d :: insert_desc c l' else c :: l
  end.

Definition sort_desc (l : list cand) : list cand := foldr insert_desc [] l.

Fixpoint select (fuel : nat) (suppresses : cand -> cand -> bool)
    (l : list cand) : list nat :=
  match fuel, l with
  | S fuel', c :: rest =>
      c_idx c
      :: select fuel' suppresses
           (List.filter (fun d => negb (suppresses c d)) rest)
  | _, _ => []
  end.

Definition candidates (boxes : list (list F)) (scores idxs : list F)
  : list cand :=
  imap (fun i '(b, s, k) => mkCand i b s k) (zip (zip boxes scores) idxs).

Definition overlaps (thr : F) (c d : cand) : bool :=
  gt (box_iou (c_box c) (c_box d)) thr.

Definition nms (boxes : list (list F)) (scores : list F) (iou_threshold : F)
  : list nat :=
  let cs := sort_desc (candidates boxes scores (map (fun _ => zero) scores)) in
  select (length cs) (overlaps iou_threshold) cs.

Definition batched_nms (boxes : list (list F)) (scores idxs : list F)
    (iou_threshold : F) : list nat :=
  let cs := sort_desc (candidates boxes scores idxs) in
  select (length cs)
    (fun c d => eqb (c_cls c) (c_cls d) && overlaps iou_threshold c d) cs.

End NMS.

(** ** postprocess *)

Section Postprocess.
Context {F : Type} `{Scalar F}.

(** A prediction tensor of shape (batch, boxes, [nchan]). *)
Record Batch : Type := mkBatch {
  nchan : nat;
  images : list (list (list F))
}.

(** Lines 35-40: centre form to corner form, written back into the
    caller's tensor. *)
Definition to_corner (r : list F) : list F :=
  let cx := nth 0 r zero in let cy := nth 1 r zero in
  let w := nth 2 r zero in let h := nth 3 r zero in
  [(cx - w / two)%S; (cy - h / two)%S; (cx + w / two)%S; (cy + h / two)%S]
  ++ drop 4 r.

(** [torch.max(row)]: the largest entry and its (first) position.  A NaN
    entry takes the place of the running maximum and ends the scan, so that
    the result is the first NaN of a row that has one. *)
Fixpoint argmax_from (best : F) (bi i : nat) (l : list F) : F * nat :=
  match l with
  | [] => (best, bi)
  | x :: l' =>
      if isnan best then (best, bi)
      else if gt x best || isnan x then argmax_from x i (S i) l'
      else argmax_from best bi (S i) l'
  end.

Definition row_max (l : list F) : option (F * nat) :=
  match l with
  | [] => None
  | x :: l' => Some (argmax_from x 0 1 l')
  end.

(** Line 49; reducing over a slice of width zero raises. *)
Fixpoint class_best (num_classes : nat) (image_pred : list (list F))
  : result (list (F * nat)) :=
  match image_pred with
  | [] => Ok []
  | r :: rest =>
      match row_max (take num_classes (drop 5 r)) with
      | None => Raise IndexError
      | Some p =>
          (let? ps := class_best num_classes rest in Ok (p :: ps))%res
      end
  end.

(** Line 51. *)
Definition conf_mask (conf_thre : F) (image_pred : list (list F))
    (best : list (F * nat)) : list bool :=
  zip_with (fun r (p : F * nat) => ge (nth 4 r zero * p.1)%S conf_thre)
    image_pred best.

(** Lines 54-60. *)
Definition assemble (num_classes : nat) (extras : bool)
    (image_pred : list (list F)) (best : list (F * nat))
  : list (list F) :=
  zip_with
    (fun r (p : F * nat) =>
       take 5 r ++ [p.1; of_nat p.2]
       ++ (if extras then drop (5 + num_classes) r else []))
    image_pred best.

(** Lines 49-61: the detections that go on to suppression. *)
Definition candidates_kept (num_classes : nat) (conf_thre : F)
    (extras : bool) (image_pred : list (list F))
  : result (list (list F)) :=
  (let? best := class_best num_classes image_pred in
   Ok (mask_select (conf_mask conf_thre image_pred best)
         (assemble num_classes extras image_pred best)))%res.

(** Lines 66-80. *)
Definition suppress (nms_thre : F) (class_agnostic : bool)
    (detections : list (list F)) : list (list F) :=
  let boxes := map (take 4) detections in
  let scores := map (fun d => nth 4 d zero * nth 5 d zero)%S detections in
  let nms_out_index :=
    if class_agnostic then nms boxes scores nms_thre
    else batched_nms boxes scores (map (fun d => nth 6 d zero) detections)
           nms_thre in
  map (fun i => nth i detections []) nms_out_index.

(** The body of the loop for one image; [None] is the entry the output
    list was initialised with.  On an image with a single candidate row the
    two [squeeze] calls of line 51 leave a mask without any axis; indexing
    [detections] with such a mask (line 61) adds a leading axis, of size one
    when the row passes and zero when it does not, so that a passing row
    makes [detections[:, 4]] (line 69 or 75) index past an axis of size
    one. *)
Definition postprocess_image (num_classes : nat) (conf_thre nms_thre : F)
    (class_agnostic extras : bool) (image_pred : list (list F))
  : result (option (list (list F))) :=
  if (length image_pred =? 0)%nat then Ok None
  else
    (let? detections :=
       candidates_kept num_classes conf_thre extras image_pred in
     if (length detections =? 0)%nat then Ok None
     else if (length image_pred =? 1)%nat then Raise IndexError
     else Ok (Some (suppress nms_thre class_agnostic detections)))%res.

Fixpoint each_image {A B} (f : A -> result B) (l : list A)
  : result (list B) :=
  match l with
  | [] => Ok []
  | x :: l' =>
      (let? y := f x in let? ys := each_image f l' in Ok (y :: ys))%res
  end.

(** Returns the prediction tensor as the call leaves it together with the
    output list. *)
Definition postprocess (prediction : Batch) (num_classes : nat)
    (conf_thre nms_thre : F) (class_agnostic keypoints segs : bool)
  : result (Batch * list (option (list (list F)))) :=
  if (nchan prediction <? 4)%nat then Raise IndexError
  else
    let prediction :=
      mkBatch (nchan prediction) (map (map to_corner) (images prediction)) in
    (let? output :=
       each_image
         (postprocess_image num_classes conf_thre nms_thre class_agnostic
            (keypoints || segs))
         (images prediction) in
     Ok (prediction, output))%res.

End Postprocess.

Arguments Batch F : clear implicits.
Arguments cand F : clear implicits.

(** ** bboxes_iou

    The function works on torch tensors that it allocates, updates in place
    ([sub_], [clamp_min_], [div_]) and releases ([del]).  Tensors live in a
    heap; a call receives the addresses of its two arguments and returns the
    address of its result.  Every named tensor of the source has a cell;
    the unnamed temporaries of an expression are values.

    A tensor carries its element type as far as torch's type promotion
    tells one from another: an operation on two integer tensors gives an
    integer tensor, an operation with a floating-point operand gives a
    floating-point tensor, true division ([/], [div_]) gives a
    floating-point result whatever its operands are, and an in-place
    operation raises RuntimeError when its result type cannot be stored in
    the tensor it updates.  The elements of a tensor of either kind are
    values of the arithmetic [F]; the model puts no integrality constraint
    on the elements of an integer tensor. *)

Abbreviation loc := positive.

Inductive dtype : Set :=
| Floating
| Integral.

Definition promote (d1 d2 : dtype) : dtype :=
  match d1, d2 with
  | Integral, Integral => Integral
  | _, _ => Floating
  end.

(** Whether a result of type [from] may be written into a tensor of type
    [to]. *)
Definition can_cast (from to : dtype) : bool :=
  match from, to with
  | Floating, Integral => false
  | _, _ => true
  end.

Section Heap.
Context {F : Type} `{Scalar F}.

Record Cube : Type := mkCube {
  cdim1 : nat;                        (* shape[1] *)
  slabs : list (list (list F))
}.

Inductive tensor : Type :=
| T1 (d : dtype) (v : list F)
| T2 (d : dtype) (m : Mat F)
| T3 (d : dtype) (c : Cube).

Definition dtype_of (t : tensor) : dtype :=
  match t with
  | T1 d _ | T2 d _ | T3 d _ => d
  end.

Definition M (A : Type) : Type :=
  gmap loc tensor -> result A * gmap loc tensor.

Definition ret {A} (a : A) : M A := fun h => (Ok a, h).

Definition bind {A B} (c : M A) (k : A -> M B) : M B :=
  fun h =>
    match c h with
    | (Ok a, h') => k a h'
    | (Raise e, h') => (Raise e, h')
    end.

Definition raise {A} (e : exn) : M A := fun h => (Raise e, h).

Definition new (t : tensor) : M loc :=
  fun h => let l := fresh (dom h) in (Ok l, <[l := t]> h).

Definition read (l : loc) : M tensor :=
  fun h =>
    match h !! l with
    | Some t => (Ok t, h)
    | None => (Raise RuntimeError, h)
    end.

Definition write (l : loc) (t : tensor) : M unit :=
  fun h =>
    match h !! l with
    | Some _ => (Ok tt, <[l := t]> h)
    | None => (Raise RuntimeError, h)
    end.

Definition del (l : loc) : M unit := fun h => (Ok tt, delete l h).

End Heap.

Arguments Cube F : clear implicits.
Arguments tensor F : clear implicits.
Arguments M F A : clear implicits.

Declare Scope heap_scope.
Delimit Scope heap_scope with heap.
Notation "x <- c ;; k" := (bind c (fun x => k))
  (at level 100, c at next level, right associativity) : heap_scope.
Notation "c ;; k" := (bind c (fun _ => k))
  (at level 100, right associativity) : heap_scope.

Section BboxesIou.
Context {F : Type} `{Scalar F}.
Local Open Scope heap_scope.

Definition read_vec (l : loc) : M F (list F) :=
  t <- read l ;;
  match t with T1 _ v => ret v | _ => raise RuntimeError end.

Definition read_mat (l : loc) : M F (Mat F) :=
  t <- read l ;;
  match t with T2 _ m => ret m | _ => raise RuntimeError end.

Definition read_cube (l : loc) : M F (Cube F) :=
  t <- read l ;;
  match t with T3 _ c => ret c | _ => raise RuntimeError end.

(** [x.dtype] *)
Definition dtype_at (l : loc) : M F dtype :=
  t <- read l ;; ret (dtype_of t).

(** [x.sub_(y)]: the difference has the promoted type of [x] and [y] and
    must fit the type of [x]. *)
Definition sub_ (x y : loc) : M F unit :=
  tx <- read x ;;
  ty <- read y ;;
  match tx, ty with
  | T3 dx cx, T3 dy cy =>
      if can_cast (promote dx dy) dx
      then write x (T3 dx (mkCube (cdim1 cx) (zip3 sub (slabs cx) (slabs cy))))
      else raise RuntimeError
  | _, _ => raise RuntimeError
  end.

(** [x.clamp_min_(v)] for an integer literal [v], which fits every element
    type. *)
Definition clamp_min_ (x : loc) (v : F) : M F unit :=
  tx <- read x ;;
  match tx with
  | T3 dx cx =>
      write x
        (T3 dx (mkCube (cdim1 cx)
                  (map (map (map (fun e => maximum e v))) (slabs cx))))
  | _ => raise RuntimeError
  end.

(** [x.div_(y)]: the quotient is a floating-point result, which an integer
    tensor cannot take. *)
Definition div_ (x y : loc) : M F unit :=
  tx <- read x ;;
  ty <- read y ;;
  match tx, ty with
  | T2 dx mx, T2 dy my =>
      if can_cast Floating dx
      then write x (T2 dx (mkMat (ncols mx) (zip2 div (rows mx) (rows my))))
      else raise RuntimeError
  | _, _ => raise RuntimeError
  end.

(** [torch.prod(x, 2)] keeps the kind of element type. *)
Definition prod2 (x : loc) : M F loc :=
  tx <- read x ;;
  match tx with
  | T3 dx cx => new (T2 dx (mkMat (cdim1 cx) (map (map prod) (slabs cx))))
  | _ => raise RuntimeError
  end.

(** Corners of centre-form rows: [m[:, :2] - m[:, 2:] / 2] and
    [m[:, :2] + m[:, 2:] / 2]. *)
Definition centre_tl (m : list (list F)) : list (list F) :=
  zip2 sub (lo m) (map (map (fun e => e / two)%S) (hi m)).
Definition centre_br (m : list (list F)) : list (list F) :=
  zip2 add (lo m) (map (map (fun e => e / two)%S) (hi m)).

(** [t.shape[1]]; a tensor of rank 1 has no such entry and asking for it
    raises IndexError. *)
Definition shape1 (t : tensor F) : result nat :=
  match t with
  | T1 _ _ => Raise IndexError
  | T2 _ m => Ok (ncols m)
  | T3 _ c => Ok (cdim1 c)
  end.

(** The test of line 89 on one argument.  Every way for that line to go
    wrong ends in IndexError: [shape[1]] of a rank-1 tensor raises it, and
    so does the [raise] of line 90. *)
Definition wrong_width (t : tensor F) : bool :=
  match shape1 t with
  | Ok c => negb (c =? 4)%nat
  | Raise _ => true
  end.

(** A rank-3 argument whose [shape[1]] is 4 gets past line 89; what the
    tensor operations then make of it is outside this model, in which the
    first [read_mat] stops with RuntimeError.

    [da] and [db] are the element types of the two arguments.  The corner
    expressions of the centre form divide by 2 and are floating-point for
    that reason; the areas keep the element type of their argument. *)
Definition bboxes_iou (bboxes_a bboxes_b : loc) (xyxy inplace : bool)
  : M F loc :=
  ta <- read bboxes_a ;;
  tb <- read bboxes_b ;;
  if wrong_width ta || wrong_width tb
  then raise IndexError
  else
  let da := dtype_of ta in
  let db := dtype_of tb in
  if inplace then
    areas <-
      (if xyxy then
         a <- read_mat bboxes_a ;; b <- read_mat bboxes_b ;;
         tl <- new (T3 (promote da db) (mkCube (nrows b)
                 (outer (zip_with maximum) (lo (rows a)) (lo (rows b))))) ;;
         a <- read_mat bboxes_a ;; b <- read_mat bboxes_b ;;
         br_hw <- new (T3 (promote da db) (mkCube (nrows b)
                    (outer (zip_with minimum) (hi (rows a)) (hi (rows b))))) ;;
         sub_ br_hw tl ;;
         clamp_min_ br_hw zero ;;
         del tl ;;
         area_ious <- prod2 br_hw ;;
         del br_hw ;;
         a <- read_mat bboxes_a ;;
         area_a <- new (T1 da
                     (map prod (zip2 sub (hi (rows a)) (lo (rows a))))) ;;
         b <- read_mat bboxes_b ;;
         area_b <- new (T1 db
                     (map prod (zip2 sub (hi (rows b)) (lo (rows b))))) ;;
         ret (area_ious, area_a, area_b)
       else
         a <- read_mat bboxes_a ;; b <- read_mat bboxes_b ;;
         tl <- new (T3 Floating (mkCube (nrows b)
                 (outer (zip_with maximum)
                    (centre_tl (rows a)) (centre_tl (rows b))))) ;;
         a <- read_mat bboxes_a ;; b <- read_mat bboxes_b ;;
         br_hw <- new (T3 Floating (mkCube (nrows b)
                    (outer (zip_with minimum)
                       (centre_br (rows a)) (centre_br (rows b))))) ;;
         sub_ br_hw tl ;;
         clamp_min_ br_hw zero ;;
         del tl ;;
         area_ious <- prod2 br_hw ;;
         del br_hw ;;
         a <- read_mat bboxes_a ;;
         area_a <- new (T1 da (map prod (hi (rows a)))) ;;
         b <- read_mat bboxes_b ;;
         area_b <- new (T1 db (map prod (hi (rows b)))) ;;
         ret (area_ious, area_a, area_b)) ;;
    let '(area_ious, area_a, area_b) := areas in
    va <- read_vec area_a ;;
    vb <- read_vec area_b ;;
    mi <- read_mat area_ious ;;
    d_a <- dtype_at area_a ;;
    d_b <- dtype_at area_b ;;
    d_i <- dtype_at area_ious ;;
    union <- new (T2 (promote (promote d_a d_b) d_i) (mkMat (ncols mi)
                (zip2 sub (outer add va vb) (rows mi)))) ;;
    div_ area_ious union ;;
    ret area_ious
  else
    corners <-
      (if xyxy then
         a <- read_mat bboxes_a ;; b <- read_mat bboxes_b ;;
         tl <- new (T3 (promote da db) (mkCube (nrows b)
                 (outer (zip_with maximum) (lo (rows a)) (lo (rows b))))) ;;
         a <- read_mat bboxes_a ;; b <- read_mat bboxes_b ;;
         br <- new (T3 (promote da db) (mkCube (nrows b)
                 (outer (zip_with minimum) (hi (rows a)) (hi (rows b))))) ;;
         a <- read_mat bboxes_a ;;
         area_a <- new (T1 da
                     (map prod (zip2 sub (hi (rows a)) (lo (rows a))))) ;;
         b <- read_mat bboxes_b ;;
         area_b <- new (T1 db
                     (map prod (zip2 sub (hi (rows b)) (lo (rows b))))) ;;
         ret (tl, br, area_a, area_b)
       else
         a <- read_mat bboxes_a ;; b <- read_mat bboxes_b ;;
         tl <- new (T3 Floating (mkCube (nrows b)
                 (outer (zip_with maximum)
                    (centre_tl (rows a)) (centre_tl (rows b))))) ;;
         a <- read_mat bboxes_a ;; b <- read_mat bboxes_b ;;
         br <- new (T3 Floating (mkCube (nrows b)
                 (outer (zip_with minimum)
                    (centre_br (rows a)) (centre_br (rows b))))) ;;
         a <- read_mat bboxes_a ;;
         area_a <- new (T1 da (map prod (hi (rows a)))) ;;
         b <- read_mat bboxes_b ;;
         area_b <- new (T1 db (map prod (hi (rows b)))) ;;
         ret (tl, br, area_a, area_b)) ;;
    let '(tl, br, area_a, area_b) := corners in
    cbr <- read_cube br ;;
    ctl <- read_cube tl ;;
    d_br <- dtype_at br ;;
    d_tl <- dtype_at tl ;;
    hw <- new (T3 (promote d_br d_tl) (mkCube (cdim1 cbr)
             (map (map (map (fun e => maximum e zero)))
                (zip3 sub (slabs cbr) (slabs ctl))))) ;;
    area_i <- prod2 hw ;;
    mi <- read_mat area_i ;;
    va <- read_vec area_a ;;
    vb <- read_vec area_b ;;
    ious <- new (T2 Floating (mkMat (ncols mi)
               (zip2 div (rows mi)
                  (zip2 sub (outer add va vb) (rows mi))))) ;;
    ret ious.

(** The value both branches of [bboxes_iou] leave in the result cell, as a
    function of the two argument arrays. *)
Definition iou_matrix (xyxy : bool) (a b : Mat F) : Mat F :=
  let tl :=
    if xyxy then outer (zip_with maximum) (lo (rows a)) (lo (rows b))
    else outer (zip_with maximum) (centre_tl (rows a)) (centre_tl (rows b)) in
  let br :=
    if xyxy then outer (zip_with minimum) (hi (rows a)) (hi (rows b))
    else outer (zip_with minimum) (centre_br (rows a)) (centre_br (rows b)) in
  let area_a :=
    if xyxy then map prod (zip2 sub (hi (rows a)) (lo (rows a)))
    else map prod (hi (rows a)) in
  let area_b :=
    if xyxy then map prod (zip2 sub (hi (rows b)) (lo (rows b)))
    else map prod (hi (rows b)) in
  let area_i :=
    map (map prod)
      (map (map (map (fun e => maximum e zero))) (zip3 sub br tl)) in
  mkMat (nrows b)
    (zip2 div area_i (zip2 sub (outer add area_a area_b) area_i)).

End BboxesIou.

(** ** Vocabulary of the properties *)

Local Open Scope Q_scope.

(** Entry [(i, j)] of a 2-D array. *)
Definition entry {F} (m : Mat F) (i j : nat) : option F :=
  match rows m !! i with
  | Some r => r !! j
  | None => None
  end.

(** Area of a corner-form row, [(x2 - x1) * (y2 - y1)]. *)
Definition box_area (r : list Q) : Q :=
  (nth 2 r 0 - nth 0 r 0) * (nth 3 r 0 - nth 1 r 0).

(** The test of [filter_box] on one row. *)
Definition in_scale_range (min_scale max_scale : Q) (r : list Q) : bool :=
  Qlt_bool (min_scale * min_scale) (box_area r)
  && Qlt_bool (box_area r) (max_scale * max_scale).

(** The round trip of section 8 for an element arithmetic [F] whose
    equality test is [same]: both conversions succeed and the reconstructed
    corners of every row are the original ones. *)
Definition corners_reproduced {F} `{Scalar F} (same : F -> F -> Prop)
    (bboxes : Mat F) : Prop :=
  exists b1 b2,
    xyxy2xywh bboxes = Ok b1
    /\ xyxy2cxcywh bboxes = Ok b2
    /\ Forall2 (fun r' r => Forall2 same (xywh_corners r') (take 4 r))
         (rows b1) (rows bboxes)
    /\ Forall2 (fun r' r => Forall2 same (cxcywh_corners r') (take 4 r))
         (rows b2) (rows bboxes).

(** What the two conversions do to one row. *)
Definition xywh_row {F} `{Scalar F} (r : list F) : list F :=
  let r1 := <[2%nat := (nth 2 r zero - nth 0 r zero)%S]> r in
  <[3%nat := (nth 3 r1 zero - nth 1 r1 zero)%S]> r1.

Definition cxcywh_row {F} `{Scalar F} (r : list F) : list F :=
  let r2 := xywh_row r in
  let r3 := <[0%nat := (nth 0 r2 zero + nth 2 r2 zero * half)%S]> r2 in
  <[1%nat := (nth 1 r3 zero + nth 3 r3 zero * half)%S]> r3.

(** The test of line 174 of [adjust_lmks_anns] on one point. *)
Definition rejected {F} `{Scalar F} (w_max h_max x y : F) : bool :=
  lt x zero || lt y zero || gt x w_max || gt y h_max.

(** Lines 166-169 of [adjust_lmks_anns] on one row. *)
Definition lmk_row {F} `{Scalar F} (scale_ratio padw padh : F) (r : list F)
  : list F :=
  zip_with (fun v (m : bool) => v * of_bool m + of_bool m - one)%S
    (stride2 id (fun y => y * scale_ratio + padh)%S
       (stride2 (fun x => x * scale_ratio + padw)%S id r))
    (map (fun v => gt v zero) r).

(** A candidate of [postprocess] is a prediction row paired with its best
    class score and class index; [fused_conf] is the confidence line 51
    compares with the threshold, [detection_row] the row lines 54-60 build
    for it. *)
Definition fused_conf (c : list Q * (Q * nat)) : Q :=
  nth 4 c.1 0 * c.2.1.

Definition detection_row {F} `{Scalar F} (num_classes : nat) (extras : bool)
    (c : list F * (F * nat)) : list F :=
  take 5 c.1 ++ [c.2.1; of_nat c.2.2]
  ++ (if extras then drop (5 + num_classes)%nat c.1 else []).

(** Score and box of a detection row, as lines 68-69 and 74-75 read them. *)
Definition det_score (d : list Q) : Q := nth 4 d 0 * nth 5 d 0.
Definition det_iou (d1 d2 : list Q) : Q := box_iou (take 4 d1) (take 4 d2).

(** [wp c h post]: run from heap [h], the computation [c] returns normally
    with a value and a final heap that satisfy [post]. *)
Definition wp {F A} (c : M F A) (h : gmap loc (tensor F))
    (post : A -> gmap loc (tensor F) -> Prop) : Prop :=
  exists a h', c h = (Ok a, h') /\ post a h'.

(** [wpr c h post]: the outcome of running [c] from heap [h], a value or an
    exception, and the final heap satisfy [post]. *)
Definition wpr {F A} (c : M F A) (h : gmap loc (tensor F))
    (post : result A -> gmap loc (tensor F) -> Prop) : Prop :=
  post (c h).1 (c h).2.

(** The calls of [bboxes_iou] that reach line 121 with an integer tensor to
    divide in place: both arguments are integer tensors in corner form and
    [inplace] is set. *)
Definition integral_in_place (da db : dtype) (xyxy inplace : bool) : bool :=
  inplace && xyxy && negb (can_cast Floating (promote da db)).

(** The IoU [bboxes_iou] computes for one row of each argument. *)
Definition pair_iou {F} `{Scalar F} (xyxy : bool) (p q : list F) : F :=
  let tl_of r :=
    if xyxy then take 2 r
    else zip_with sub (take 2 r) (map (fun e => e / two)%S (drop 2 r)) in
  let br_of r :=
    if xyxy then drop 2 r
    else zip_with add (take 2 r) (map (fun e => e / two)%S (drop 2 r)) in
  let area_of r :=
    if xyxy then prod (zip_with sub (drop 2 r) (take 2 r))
    else prod (drop 2 r) in
  let area_i :=
    prod (map (fun e => maximum e zero)
            (zip_with sub (zip_with minimum (br_of p) (br_of q))
               (zip_with maximum (tl_of p) (tl_of q)))) in
  (area_i / (area_of p + area_of q - area_i))%S.

(** The IoU [matrix_iou] computes for one row of each argument. *)
Definition pair_matrix_iou {F} `{Scalar F} (p q : list F) : F :=
  let lt_ := zip_with maximum (take 2 p) (take 2 q) in
  let rb := zip_with minimum (drop 2 p) (drop 2 q) in
  let area_i :=
    (prod (zip_with sub rb lt_) * of_bool (all_true (zip_with lt lt_ rb)))%S in
  let area_p := prod (zip_with sub (drop 2 p) (take 2 p)) in
  let area_q := prod (zip_with sub (drop 2 q) (take 2 q)) in
  (area_i / (area_p + area_q - area_i + eps))%S.

(** A non-degenerate corner-form box, and two boxes that do not overlap: one
    lies entirely to the left of, to the right of, above or below the
    other (touching edges included). *)
Definition proper_box (p : list Q) : Prop :=
  exists x1 y1 x2 y2, p = [x1; y1; x2; y2] /\ x1 < x2 /\ y1 < y2.

Definition disjoint_boxes (p q : list Q) : Prop :=
  nth 2 p 0 <= nth 0 q 0 \/ nth 2 q 0 <= nth 0 p 0
  \/ nth 3 p 0 <= nth 1 q 0 \/ nth 3 q 0 <= nth 1 p 0.

(** The test of line 29 of [filter_box] on one row, in any arithmetic. *)
Definition keeps_box {F} `{Scalar F} (min_scale max_scale : F) (r : list F)
  : bool :=
  let w := (nth 2 r zero - nth 0 r zero)%S in
  let h := (nth 3 r zero - nth 1 r zero)%S in
  gt (w * h)%S (min_scale * min_scale)%S
  && lt (w * h)%S (max_scale * max_scale)%S.

(** * Properties *)

(** ** Lists and rationals *)

Lemma map_is_fmap {A B} (f : A -> B) (l : list A) : map f l = f <$> l.
Proof. reflexivity. Qed.

Lemma zip_with_map_same {A B C D} (f : B -> C -> D) (g : A -> B) (k : A -> C)
    (l : list A) :
  zip_with f (map g l) (map k l) = map (fun x => f (g x) (k x)) l.
Proof. induction l as [|x l IH]; simpl; [done | by rewrite IH]. Qed.

Lemma mask_select_map {A} (P : A -> bool) (l : list A) :
  mask_select (map P l) l = List.filter P l.
Proof.
  induction l as [|x l IH]; simpl; [done |].
  destruct (P x); by rewrite IH.
Qed.

Lemma filter_sublist {A} (P : A -> bool) (l : list A) :
  sublist (List.filter P l) l.
Proof.
  induction l as [|x l IH]; simpl; [constructor |].
  destruct (P x); by constructor.
Qed.

Lemma Qlt_bool_iff (x y : Q) : Qlt_bool x y = true <-> x < y.
Proof.
  unfold Qlt_bool. rewrite negb_true_iff.
  split.
  - intros Hb. apply Qnot_le_lt. intros Hle.
    apply Qle_bool_iff in Hle. congruence.
  - intros Hlt. destruct (Qle_bool y x) eqn:E; [|done].
    apply Qle_bool_iff in E. exfalso. apply (Qlt_not_le _ _ Hlt E).
Qed.

Lemma Qlt_bool_false_iff (x y : Q) : Qlt_bool x y = false <-> y <= x.
Proof.
  unfold Qlt_bool. rewrite negb_false_iff. apply Qle_bool_iff.
Qed.

(** ** filter_box *)

Lemma filter_box_filter (output : Mat Q) (min_scale max_scale : Q) :
  (4 <= ncols output)%nat ->
  filter_box output (min_scale, max_scale)
  = Ok (mkMat (ncols output)
          (List.filter (in_scale_range min_scale max_scale) (rows output))).
Proof.
  intros Hc. unfold filter_box, column.
  repeat match goal with
  | |- context [(?j <? ncols output)%nat] =>
      replace (j <? ncols output)%nat with true
        by (symmetry; apply Nat.ltb_lt; lia)
  end.
  cbn [rbind]. do 2 f_equal.
  rewrite !zip_with_map_same, !map_map.
  apply mask_select_map.
Qed.

Lemma in_scale_range_iff (mn mx : Q) (r : list Q) :
  in_scale_range mn mx r = true
  <-> mn * mn < box_area r /\ box_area r < mx * mx.
Proof.
  unfold in_scale_range. rewrite andb_true_iff, !Qlt_bool_iff. tauto.
Qed.

(** C9: on an array with at least four columns [filter_box] returns, in
    their original order, exactly the rows whose area lies strictly between
    [min_scale^2] and [max_scale^2]; a row whose area equals either bound is
    dropped, and when no row qualifies the result is an array without rows. *)
Theorem filter_box_strict_range (output : Mat Q) (min_scale max_scale : Q) :
  (4 <= ncols output)%nat ->
  exists kept,
    filter_box output (min_scale, max_scale) = Ok (mkMat (ncols output) kept)
    /\ kept = List.filter (in_scale_range min_scale max_scale) (rows output)
    /\ sublist kept (rows output)
    /\ (forall r, In r kept <->
                  In r (rows output)
                  /\ min_scale * min_scale < box_area r
                  /\ box_area r < max_scale * max_scale)
    /\ (forall r, In r (rows output) ->
                  box_area r == min_scale * min_scale
                  \/ box_area r == max_scale * max_scale ->
                  ~ In r kept)
    /\ ((forall r, In r (rows output) ->
                   ~ (min_scale * min_scale < box_area r
                      /\ box_area r < max_scale * max_scale)) ->
        kept = []).
Proof.
  intros Hc. eexists. split; [by apply filter_box_filter |].
  split; [done |]. split; [apply filter_sublist |].
  assert (Hin : forall r,
    In r (List.filter (in_scale_range min_scale max_scale) (rows output)) <->
    In r (rows output)
    /\ min_scale * min_scale < box_area r
    /\ box_area r < max_scale * max_scale).
  { intros r. rewrite List.filter_In, in_scale_range_iff. tauto. }
  split; [exact Hin |]. split.
  - intros r _ Heq Hk. apply Hin in Hk as (_ & Hlo & Hhi).
    destruct Heq as [Heq | Heq]; rewrite Heq in *;
      eapply Qlt_irrefl; eassumption.
  - intros Hnone.
    destruct (List.filter _ _) as [|r l] eqn:E; [done |].
    exfalso. destruct (proj1 (Hin r)) as (Hr & Hlo & Hhi); [by left |].
    apply (Hnone r Hr). by split.
Qed.

Lemma filter_box_strict_range_witness :
  exists kept,
    filter_box (mkMat 5 [[0; 0; 2; 2; 7]; [0; 0; 3; 3; 1]; [0; 0; 4; 4; 1]])
      (2, 4) = Ok (mkMat 5 kept)
    /\ kept = [[0; 0; 3; 3; 1]].
Proof.
  destruct (filter_box_strict_range
              (mkMat 5 [[0; 0; 2; 2; 7]; [0; 0; 3; 3; 1]; [0; 0; 4; 4; 1]])
              2 4) as (kept & Hk & Heq & _).
  - simpl. lia.
  - exists kept. split; [exact Hk |]. rewrite Heq. vm_compute. reflexivity.
Defined.

(** ** xyxy2xywh, xyxy2cxcywh *)

Section Conversions.
Context {F : Type} `{Scalar F}.

Lemma set_column_map (j : nat) (f : F -> F -> F) (g k : list F -> F)
    (n : nat) (l : list (list F)) :
  (j < n)%nat ->
  set_column j (zip_with f (map g l) (map k l)) (mkMat n l)
  = Ok (mkMat n (map (fun r => <[j := f (g r) (k r)]> r) l)).
Proof.
  intros Hj. unfold set_column. cbn [ncols rows].
  replace (j <? n)%nat with true by (symmetry; by apply Nat.ltb_lt).
  do 2 f_equal. rewrite zip_with_map_same.
  induction l as [|r l IH]; simpl; [done | by rewrite IH].
Qed.

Lemma set_column_map1 (j : nat) (f : F -> F -> F) (g k : list F -> F)
    (u : F -> F) (n : nat) (l : list (list F)) :
  (j < n)%nat ->
  set_column j (zip_with f (map g l) (map u (map k l))) (mkMat n l)
  = Ok (mkMat n (map (fun r => <[j := f (g r) (u (k r))]> r) l)).
Proof.
  intros Hj. rewrite map_map.
  apply (set_column_map j f g (fun r => u (k r)) n l Hj).
Qed.

Lemma column_ok (j : nat) (n : nat) (l : list (list F)) :
  (j < n)%nat ->
  column j (mkMat n l) = Ok (map (fun r => nth j r zero) l).
Proof.
  intros Hj. unfold column. cbn [ncols rows].
  by replace (j <? n)%nat with true by (symmetry; by apply Nat.ltb_lt).
Qed.

Lemma xyxy2xywh_rows (bboxes : Mat F) :
  (4 <= ncols bboxes)%nat ->
  xyxy2xywh bboxes = Ok (mkMat (ncols bboxes) (map xywh_row (rows bboxes))).
Proof.
  intros Hc. destruct bboxes as [n l]. cbn [ncols rows] in *.
  unfold xyxy2xywh.
  rewrite !column_ok by lia. cbn [rbind].
  rewrite set_column_map by lia. cbn [rbind].
  rewrite !column_ok by lia. cbn [rbind].
  rewrite set_column_map by lia. cbn [rbind].
  by rewrite map_map.
Qed.

Lemma xyxy2cxcywh_rows (bboxes : Mat F) :
  (4 <= ncols bboxes)%nat ->
  xyxy2cxcywh bboxes
  = Ok (mkMat (ncols bboxes) (map cxcywh_row (rows bboxes))).
Proof.
  intros Hc. destruct bboxes as [n l]. cbn [ncols rows] in *.
  unfold xyxy2cxcywh.
  rewrite !column_ok by lia. cbn [rbind].
  rewrite set_column_map by lia. cbn [rbind].
  rewrite !column_ok by lia. cbn [rbind].
  rewrite set_column_map by lia. cbn [rbind].
  rewrite !column_ok by lia. cbn [rbind].
  rewrite set_column_map1 by lia. cbn [rbind].
  rewrite !column_ok by lia. cbn [rbind].
  rewrite set_column_map1 by lia. cbn [rbind].
  by rewrite !map_map.
Qed.

End Conversions.

Lemma four_or_more {A} (n : nat) (r : list A) :
  (4 <= n)%nat -> length r = n ->
  exists a b c d rest, r = a :: b :: c :: d :: rest.
Proof.
  intros Hn Hl.
  destruct r as [|a [|b [|c [|d rest]]]]; simpl in Hl; try lia.
  by exists a, b, c, d, rest.
Qed.

(** C8, as amended: over exact rational arithmetic, on every array with at
    least four columns, both conversions succeed and the inverse
    reconstructions give back the original corner coordinates of every
    row. *)
Theorem roundtrip_exact_on_rationals (bboxes : Mat Q) :
  wf_mat bboxes -> (4 <= ncols bboxes)%nat ->
  corners_reproduced Qeq bboxes.
Proof.
  intros Hwf Hc. unfold corners_reproduced.
  exists (mkMat (ncols bboxes) (map xywh_row (rows bboxes))),
         (mkMat (ncols bboxes) (map cxcywh_row (rows bboxes))).
  split; [by apply xyxy2xywh_rows |].
  split; [by apply xyxy2cxcywh_rows |].
  cbn [rows]. unfold wf_mat in Hwf.
  split.
  - induction Hwf as [|r l Hr _ IH]; simpl; constructor; [| exact IH].
    destruct (four_or_more _ r Hc Hr) as (x1 & y1 & x2 & y2 & rest & ->).
    cbn. repeat constructor; simpl; ring.
  - induction Hwf as [|r l Hr _ IH]; simpl; constructor; [| exact IH].
    destruct (four_or_more _ r Hc Hr) as (x1 & y1 & x2 & y2 & rest & ->).
    cbn. repeat constructor; simpl; field.
Qed.

Lemma roundtrip_exact_on_rationals_witness :
  wf_mat (mkMat 4 [[1 # 5; 1 # 5; 9 # 10; 9 # 10]])
  /\ (4 <= 4)%nat
  /\ corners_reproduced Qeq (mkMat 4 [[1 # 5; 1 # 5; 9 # 10; 9 # 10]]).
Proof.
  assert (Hwf : wf_mat (mkMat 4 [[1 # 5; 1 # 5; 9 # 10; 9 # 10]])).
  { repeat constructor. }
  split; [exact Hwf |]. split; [lia |].
  apply roundtrip_exact_on_rationals; [exact Hwf | simpl; lia].
Defined.

(** C8, as stated, fails in binary64: for the box (0.2, 0.2, 0.9, 0.9) the
    width 0.9 - 0.2 is rounded, and 0.2 + (0.9 - 0.2) is not 0.9. *)
Lemma roundtrip_inexact_in_binary64 :
  ~ corners_reproduced (fun x y => PrimFloat.eqb x y = true)
      (mkMat 4 [[0.2; 0.2; 0.9; 0.9]%float]).
Proof.
  intros (b1 & b2 & H1 & _ & HF & _).
  vm_compute in H1. injection H1 as <-.
  apply Forall2_cons_1 in HF as [HF _].
  vm_compute in HF.
  apply Forall2_cons_1 in HF as [_ HF].
  apply Forall2_cons_1 in HF as [_ HF].
  apply Forall2_cons_1 in HF as [HF _].
  vm_compute in HF. discriminate HF.
Qed.

(** ** adjust_lmks_anns *)

Section Landmarks.
Context {F : Type} `{Scalar F}.

Lemma stride2_lookup (f g : F -> F) (r : list F) (i : nat) :
  stride2 f g r !! i = (if Nat.even i then f else g) <$> (r !! i).
Proof.
  revert f g i. induction r as [|x r IH]; intros f g i.
  - by destruct i.
  - destruct i as [|i]; [done |]. cbn [stride2 lookup list_lookup].
    rewrite IH. rewrite Nat.even_succ, <- Nat.negb_even.
    by destruct (Nat.even i).
Qed.

Lemma stride2_length (f g : F -> F) (r : list F) :
  length (stride2 f g r) = length r.
Proof.
  revert f g. induction r as [|x r IH]; intros f g; simpl; [done |].
  by rewrite IH.
Qed.

Variables w_max h_max : F.

Lemma check_point_length (row : list F) (k : nat) :
  length (check_point w_max h_max row k) = length row.
Proof.
  unfold check_point. destruct (_ || _); [| done].
  by rewrite !length_insert.
Qed.

Lemma check_point_other (row : list F) (k i : nat) :
  i <> (2 * k)%nat -> i <> (2 * k + 1)%nat ->
  check_point w_max h_max row k !! i = row !! i.
Proof.
  intros H0 H1. unfold check_point. destruct (_ || _); [| done].
  rewrite !list_lookup_insert_ne by lia. done.
Qed.

Lemma check_point_hit (row : list F) (k : nat) :
  (2 * k + 1 < length row)%nat ->
  rejected w_max h_max (nth (2 * k) row zero) (nth (2 * k + 1) row zero)
  = true ->
  check_point w_max h_max row k !! (2 * k)%nat = Some neg_one
  /\ check_point w_max h_max row k !! (2 * k + 1)%nat = Some neg_one.
Proof.
  intros Hlen Hrej. unfold check_point. unfold rejected in Hrej.
  rewrite Hrej. split.
  - rewrite list_lookup_insert_ne by lia.
    apply list_lookup_insert_eq. lia.
  - apply list_lookup_insert_eq. rewrite length_insert. lia.
Qed.

Lemma check_fold_length (ks : list nat) (row : list F) :
  length (fold_left (check_point w_max h_max) ks row) = length row.
Proof.
  revert row. induction ks as [|k ks IH]; intros row; simpl; [done |].
  by rewrite IH, check_point_length.
Qed.

Lemma check_fold_other (ks : list nat) (row : list F) (i : nat) :
  (forall k, In k ks -> i <> (2 * k)%nat /\ i <> (2 * k + 1)%nat) ->
  fold_left (check_point w_max h_max) ks row !! i = row !! i.
Proof.
  revert row. induction ks as [|k ks IH]; intros row Hks; simpl; [done |].
  rewrite IH by (intros k' Hk'; apply Hks; by right).
  destruct (Hks k) as [H0 H1]; [by left |].
  by apply check_point_other.
Qed.

Lemma check_fold_hit (ks : list nat) (row : list F) (k : nat) :
  List.NoDup ks -> In k ks ->
  (2 * k + 1 < length row)%nat ->
  rejected w_max h_max (nth (2 * k) row zero) (nth (2 * k + 1) row zero)
  = true ->
  fold_left (check_point w_max h_max) ks row !! (2 * k)%nat = Some neg_one
  /\ fold_left (check_point w_max h_max) ks row !! (2 * k + 1)%nat
     = Some neg_one.
Proof.
  revert row. induction ks as [|k' ks IH]; intros row Hnd Hin Hlen Hrej.
  { destruct Hin. }
  apply List.NoDup_cons_iff in Hnd as [Hnotin Hnd]. simpl.
  destruct (decide (k' = k)) as [-> | Hne].
  - destruct (check_point_hit row k Hlen Hrej) as [Hx Hy].
    rewrite !check_fold_other; [done | |].
    + intros j Hj. assert (j <> k) by (intros ->; done). lia.
    + intros j Hj. assert (j <> k) by (intros ->; done). lia.
  - destruct Hin as [? | Hin]; [done |].
    apply IH; [done | done | by rewrite check_point_length |].
    rewrite !nth_lookup, !check_point_other by lia.
    by rewrite <- !nth_lookup.
Qed.

Lemma check_row_hit (row : list F) (k : nat) :
  (2 * k + 1 < length row)%nat ->
  rejected w_max h_max (nth (2 * k) row zero) (nth (2 * k + 1) row zero)
  = true ->
  check_row w_max h_max row !! (2 * k)%nat = Some neg_one
  /\ check_row w_max h_max row !! (2 * k + 1)%nat = Some neg_one.
Proof.
  intros Hlen Hrej. unfold check_row.
  apply check_fold_hit; [apply List.seq_NoDup | | done | done].
  apply List.in_seq. split; [lia |]. rewrite Nat.add_0_l.
  apply Nat.div_le_lower_bound; lia.
Qed.

Lemma check_rows_ok (l : list (list F)) :
  Forall (fun r => Nat.even (length r) = true) l ->
  check_rows w_max h_max l = Ok (map (check_row w_max h_max) l).
Proof.
  induction 1 as [|r l Hr _ IH]; simpl; [done |].
  by rewrite Hr, IH.
Qed.

End Landmarks.

Section LandmarkRows.
Context {F : Type} `{Scalar F}.
Variables scale_ratio padw padh w_max h_max : F.

Lemma lmk_row_length (r : list F) :
  length (lmk_row scale_ratio padw padh r) = length r.
Proof.
  unfold lmk_row.
  rewrite length_zip_with, !stride2_length, length_map. lia.
Qed.

Lemma lmk_row_even (r : list F) (k : nat) (x : F) :
  r !! (2 * k)%nat = Some x ->
  lmk_row scale_ratio padw padh r !! (2 * k)%nat
  = Some ((x * scale_ratio + padw) * of_bool (gt x zero)
          + of_bool (gt x zero) - one)%S.
Proof.
  intros Hx. unfold lmk_row.
  rewrite lookup_zip_with, !stride2_lookup, map_is_fmap, list_lookup_fmap.
  replace (Nat.even (2 * k)) with true
    by (symmetry; apply Nat.even_spec; by exists k).
  by rewrite Hx.
Qed.

Lemma lmk_row_odd (r : list F) (k : nat) (y : F) :
  r !! (2 * k + 1)%nat = Some y ->
  lmk_row scale_ratio padw padh r !! (2 * k + 1)%nat
  = Some ((y * scale_ratio + padh) * of_bool (gt y zero)
          + of_bool (gt y zero) - one)%S.
Proof.
  intros Hy. unfold lmk_row.
  rewrite lookup_zip_with, !stride2_lookup, map_is_fmap, list_lookup_fmap.
  replace (Nat.even (2 * k + 1)) with false.
  - by rewrite Hy.
  - symmetry. rewrite <- Nat.negb_odd, negb_false_iff.
    apply Nat.odd_spec. by exists k.
Qed.

Lemma adjust_lmks_anns_rows (landmarks : Mat F) :
  wf_mat landmarks -> Nat.even (ncols landmarks) = true ->
  adjust_lmks_anns landmarks scale_ratio padw padh w_max h_max
  = Ok (mkMat (ncols landmarks)
          (map (fun r =>
                  stride2 id (fun y => y * scale_ratio + padh)%S
                    (stride2 (fun x => x * scale_ratio + padw)%S id r))
             (rows landmarks)),
        mkMat (ncols landmarks)
          (map (fun r =>
                  check_row w_max h_max (lmk_row scale_ratio padw padh r))
             (rows landmarks))).
Proof.
  intros Hwf Hev. unfold adjust_lmks_anns.
  rewrite map_map. unfold zip2.
  rewrite (zip_with_map_same
             (zip_with (fun v (m : bool) => v * of_bool m + of_bool m - one)%S)
             (fun r => stride2 id (fun y => y * scale_ratio + padh)%S
                         (stride2 (fun x => x * scale_ratio + padw)%S id r))
             (map (fun v => gt v zero)) (rows landmarks)).
  fold (lmk_row scale_ratio padw padh).
  rewrite check_rows_ok.
  - cbn [rbind]. by rewrite map_map.
  - apply Forall_forall. intros r' Hr'.
    apply list_elem_of_In, List.in_map_iff in Hr' as (r & <- & Hr).
    change (Nat.even (length (lmk_row scale_ratio padw padh r)) = true).
    rewrite lmk_row_length.
    unfold wf_mat in Hwf. rewrite Forall_forall in Hwf.
    rewrite (Hwf r); [done | by apply list_elem_of_In].
Qed.

End LandmarkRows.

Lemma masked_nonpositive (v orig : Q) :
  orig <= 0 -> v * of_bool (gt orig 0) + of_bool (gt orig 0) - 1 < 0.
Proof.
  intros Ho. unfold gt. cbn [lt Q_scalar].
  replace (Qlt_bool 0 orig) with false
    by (symmetry; by apply Qlt_bool_false_iff).
  cbn [of_bool zero one Q_scalar]. lra.
Qed.

Lemma masked_positive (v orig : Q) :
  0 < orig -> v * of_bool (gt orig 0) + of_bool (gt orig 0) - 1 == v.
Proof.
  intros Ho. unfold gt. cbn [lt Q_scalar].
  replace (Qlt_bool 0 orig) with true by (symmetry; by apply Qlt_bool_iff).
  cbn [of_bool zero one Q_scalar]. lra.
Qed.

Lemma rejected_iff (w_max h_max x y : Q) :
  rejected w_max h_max x y = true
  <-> x < 0 \/ y < 0 \/ w_max < x \/ h_max < y.
Proof.
  unfold rejected, gt. cbn [lt zero Q_scalar].
  rewrite !orb_true_iff, !Qlt_bool_iff. tauto.
Qed.

(** C7, as amended: in exact arithmetic, in the array [adjust_lmks_anns]
    returns, a landmark whose original x or y was not positive is (-1, -1)
    whatever the scale and padding are, and so is a landmark whose
    transformed x lies outside [0, w_max] or whose transformed y lies
    outside [0, h_max]. *)
Theorem adjust_lmks_invalidates (landmarks : Mat Q)
    (scale_ratio padw padh w_max h_max : Q) :
  wf_mat landmarks -> Nat.even (ncols landmarks) = true ->
  exists caller out,
    adjust_lmks_anns landmarks scale_ratio padw padh w_max h_max
    = Ok (caller, out)
    /\ forall (j k : nat) (r : list Q) (x y : Q),
         rows landmarks !! j = Some r ->
         r !! (2 * k)%nat = Some x -> r !! (2 * k + 1)%nat = Some y ->
         (x <= 0 \/ y <= 0 ->
          entry out j (2 * k) = Some (-1)
          /\ entry out j (2 * k + 1) = Some (-1))
         /\ (x * scale_ratio + padw < 0 \/ w_max < x * scale_ratio + padw
             \/ y * scale_ratio + padh < 0 \/ h_max < y * scale_ratio + padh ->
             entry out j (2 * k) = Some (-1)
             /\ entry out j (2 * k + 1) = Some (-1)).
Proof.
  intros Hwf Hev. eexists _, _.
  split; [by apply adjust_lmks_anns_rows |].
  intros j k r x y Hr Hx Hy.
  unfold entry. cbn [rows].
  rewrite map_is_fmap, list_lookup_fmap, Hr. cbn [fmap option_fmap option_map].
  assert (Hlen : (2 * k + 1 < length (lmk_row scale_ratio padw padh r))%nat).
  { rewrite lmk_row_length. by apply lookup_lt_Some in Hy. }
  pose proof (lmk_row_even scale_ratio padw padh r k x Hx) as Hx3.
  pose proof (lmk_row_odd scale_ratio padw padh r k y Hy) as Hy3.
  assert (Hgo : forall (P : Prop),
    (P -> rejected w_max h_max
            (nth (2 * k) (lmk_row scale_ratio padw padh r) zero)
            (nth (2 * k + 1) (lmk_row scale_ratio padw padh r) zero) = true) ->
    P ->
    check_row w_max h_max (lmk_row scale_ratio padw padh r) !! (2 * k)%nat
    = Some (-1)
    /\ check_row w_max h_max (lmk_row scale_ratio padw padh r)
         !! (2 * k + 1)%nat = Some (-1)).
  { intros P HP p. apply (check_row_hit w_max h_max _ k Hlen (HP p)). }
  rewrite (nth_lookup_Some _ _ _ _ Hx3), (nth_lookup_Some _ _ _ _ Hy3) in Hgo.
  cbn [add sub mul one zero Q_scalar] in Hgo.
  split; apply Hgo; intros Hc; apply rejected_iff.
  - destruct Hc as [Hc | Hc].
    + left. by apply masked_nonpositive.
    + right; left. by apply masked_nonpositive.
  - destruct (Qlt_le_dec 0 x) as [Hpx | Hnx];
      [| left; by apply masked_nonpositive].
    destruct (Qlt_le_dec 0 y) as [Hpy | Hny];
      [| right; left; by apply masked_nonpositive].
    rewrite (masked_positive (x * scale_ratio + padw) x Hpx).
    rewrite (masked_positive (y * scale_ratio + padh) y Hpy).
    tauto.
Qed.

Lemma adjust_lmks_invalidates_witness :
  wf_mat (mkMat 4 [[1; 1; -1; -1]; [0; 5; 3; 300]])
  /\ Nat.even 4 = true
  /\ exists caller out,
       adjust_lmks_anns (mkMat 4 [[1; 1; -1; -1]; [0; 5; 3; 300]])
         2 1 1 100 100 = Ok (caller, out)
       /\ entry out 0 2 = Some (-1) /\ entry out 1 3 = Some (-1).
Proof.
  assert (Hwf : wf_mat (mkMat 4 [[1; 1; -1; -1]; [0; 5; 3; 300]])).
  { repeat constructor. }
  split; [exact Hwf |]. split; [reflexivity |].
  destruct (adjust_lmks_invalidates
              (mkMat 4 [[1; 1; -1; -1]; [0; 5; 3; 300]]) 2 1 1 100 100
              Hwf eq_refl) as (caller & out & Hrun & Hpts).
  exists caller, out. split; [exact Hrun |]. split.
  - apply (Hpts 0%nat 1%nat [1; 1; -1; -1] (-1) (-1));
      [reflexivity | reflexivity | reflexivity | left; lra].
  - apply (Hpts 1%nat 1%nat [0; 5; 3; 300] 3 300);
      [reflexivity | reflexivity | reflexivity | right; right; right; lra].
Defined.

(** C7, as stated, fails in binary64.  The bounds test of line 174 reads the
    value line 169 has computed, [(t * 1 + 1) - 1], not the transformed
    coordinate [t] itself, and adding 1 absorbs what is small next to 1.
    With scale 1 and [padw = -(0.1 * 3)] the landmark (0.3, 5) has the
    transformed x [0.3 - 0.30000000000000004], which is negative, yet the
    point comes back as (0, 5).  With [padw = 2^-46] the landmark (127, 10)
    has a transformed x above [w_max = 127], yet the point comes back as
    (127, 10). *)
Lemma adjust_lmks_rounding_in_binary64 :
  (let padw := (- (0.1 * 3))%float in
   PrimFloat.ltb (0.3 * 1 + padw) 0 = true
   /\ exists caller,
        adjust_lmks_anns (mkMat 2 [[0.3; 5]%float])
          1%float padw 0%float 127%float 127%float
        = Ok (caller, mkMat 2 [[0; 5]%float]))
  /\ (let padw := 0x1p-46%float in
      PrimFloat.ltb 127 (127 * 1 + padw) = true
      /\ exists caller,
           adjust_lmks_anns (mkMat 2 [[127; 10]%float])
             1%float padw 0%float 127%float 127%float
           = Ok (caller, mkMat 2 [[127; 10]%float])).
Proof.
  split; intros padw; (split; [vm_compute; reflexivity |]);
    eexists; vm_compute; reflexivity.
Qed.

(** ** postprocess: the confidence filter *)

Section ConfidenceFilter.
Context {F : Type} `{Scalar F}.

Lemma mask_select_map2 {A B} (P : A -> bool) (g : A -> B) (l : list A) :
  mask_select (map P l) (map g l) = map g (List.filter P l).
Proof.
  induction l as [|x l IH]; simpl; [done |].
  destruct (P x); simpl; by rewrite IH.
Qed.

Lemma mask_select_length {A} (keep : list bool) (l : list A) :
  (length (mask_select keep l) <= length l)%nat.
Proof.
  revert l. induction keep as [|b keep IH]; intros [|x l]; simpl; try lia.
  destruct b; simpl; specialize (IH l); lia.
Qed.

Lemma mask_select_zip {A B C} (f : A -> B -> bool) (g : A -> B -> C)
    (l : list A) (k : list B) :
  mask_select (zip_with f l k) (zip_with g l k)
  = map (fun c => g c.1 c.2) (List.filter (fun c => f c.1 c.2) (zip l k)).
Proof.
  revert k. induction l as [|x l IH]; intros [|y k]; simpl; try done.
  destruct (f x y); simpl; by rewrite IH.
Qed.

Lemma candidates_kept_filter (num_classes : nat) (conf_thre : F)
    (extras : bool) (image_pred : list (list F)) (best : list (F * nat)) :
  class_best num_classes image_pred = Ok best ->
  candidates_kept num_classes conf_thre extras image_pred
  = Ok (map (detection_row num_classes extras)
          (List.filter
             (fun c => ge (nth 4 c.1 zero * c.2.1)%S conf_thre)
             (zip image_pred best))).
Proof.
  intros Hbest. unfold candidates_kept. rewrite Hbest. cbn [rbind].
  f_equal. unfold conf_mask, assemble.
  apply (mask_select_zip
           (fun r (p : F * nat) => ge (nth 4 r zero * p.1)%S conf_thre)).
Qed.

Lemma class_best_length (num_classes : nat) (image_pred : list (list F))
    (best : list (F * nat)) :
  class_best num_classes image_pred = Ok best ->
  length best = length image_pred.
Proof.
  revert best. induction image_pred as [|r l IH]; intros best; simpl.
  - by intros [= <-].
  - destruct (row_max _); [| done].
    destruct (class_best num_classes l) as [ps |]; [| done].
    cbn [rbind]. intros [= <-]. simpl. by rewrite (IH ps).
Qed.

Lemma class_best_lookup (num_classes : nat) (image_pred : list (list F))
    (best : list (F * nat)) (i : nat) (r : list F) (p : F * nat) :
  class_best num_classes image_pred = Ok best ->
  image_pred !! i = Some r -> best !! i = Some p ->
  row_max (take num_classes (drop 5 r)) = Some p.
Proof.
  revert best i. induction image_pred as [|r' l IH]; intros best i; simpl.
  - by intros _ ?.
  - destruct (row_max (take num_classes (drop 5 r'))) as [p' |] eqn:E;
      [| done].
    destruct (class_best num_classes l) as [ps |]; [| done].
    cbn [rbind]. intros [= <-]. destruct i as [|i]; simpl.
    + by intros [= <-] [= <-].
    + by apply IH.
Qed.

Lemma candidates_kept_length (num_classes : nat) (conf_thre : F)
    (extras : bool) (image_pred kept : list (list F)) :
  candidates_kept num_classes conf_thre extras image_pred = Ok kept ->
  (length kept <= length image_pred)%nat.
Proof.
  unfold candidates_kept.
  destruct (class_best num_classes image_pred) as [best |] eqn:E; [| done].
  cbn [rbind]. intros [= <-].
  etrans; [apply mask_select_length |].
  unfold assemble. rewrite length_zip_with. lia.
Qed.

End ConfidenceFilter.

Lemma Q_isnan (x : Q) : isnan x = false.
Proof.
  unfold isnan. cbn [eqb Q_scalar].
  by rewrite (proj2 (Qeq_bool_iff x x) (Qeq_refl x)).
Qed.

Lemma argmax_from_spec (l : list Q) (best : Q) (bi i : nat) (v : Q) (j : nat) :
  argmax_from best bi i l = (v, j) ->
  ((v = best /\ j = bi) \/ exists m, l !! m = Some v /\ j = (i + m)%nat)
  /\ best <= v
  /\ forall x, In x l -> x <= v.
Proof.
  revert best bi i. induction l as [|x l IH]; intros best bi i; simpl.
  - intros [= <- <-]. split; [by left |]. split; [apply Qle_refl | tauto].
  - rewrite !Q_isnan, orb_false_r. unfold gt. cbn [lt Q_scalar].
    destruct (Qlt_bool best x) eqn:E; intros Hrun;
      apply IH in Hrun as (Hpos & Hle & Hall).
    + apply Qlt_bool_iff in E. split; [| split].
      * right. destruct Hpos as [[-> ->] | (m & Hm & ->)].
        -- exists 0%nat. split; [done | lia].
        -- exists (S m). split; [done | lia].
      * apply Qlt_le_weak. eapply Qlt_le_trans; eassumption.
      * intros y [<- | Hy]; [done | by apply Hall].
    + apply Qlt_bool_false_iff in E. split; [| split].
      * destruct Hpos as [? | (m & Hm & ->)]; [by left |].
        right. exists (S m). split; [done | lia].
      * done.
      * intros y [<- | Hy]; [| by apply Hall].
        eapply Qle_trans; eassumption.
Qed.

Lemma row_max_spec (l : list Q) (v : Q) (j : nat) :
  row_max l = Some (v, j) ->
  l !! j = Some v /\ forall x, In x l -> x <= v.
Proof.
  destruct l as [|x l]; [done |]. simpl. intros [= Hrun].
  apply argmax_from_spec in Hrun as (Hpos & Hle & Hall). split.
  - destruct Hpos as [[-> ->] | (m & Hm & ->)]; done.
  - intros y [<- | Hy]; [done | by apply Hall].
Qed.

(** C2: what the loop body of [postprocess] does with one image whose rows
    carry class scores.  [best] pairs every row with its largest class score
    and the position of that score.  The detections handed to suppression
    are, in image order, those built from the rows whose fused confidence
    (objectness times largest class score) is at least [conf_thre], a row
    whose fused confidence equals the threshold included; when no row
    passes, the image's entry stays [None].  On an image of two or more
    rows the entry is the suppression of exactly those detections.  On an
    image of a single row that passes, line 51 has squeezed the mask down to
    no axis at all, and the call raises IndexError before suppression is
    reached: there the code does not do what the claim says. *)
Theorem conf_filter_inclusive (num_classes : nat) (conf_thre nms_thre : Q)
    (class_agnostic extras : bool) (image_pred : list (list Q))
    (best : list (Q * nat)) :
  class_best num_classes image_pred = Ok best ->
  let passes := fun c => Qle_bool conf_thre (fused_conf c) in
  let kept :=
    map (detection_row num_classes extras)
      (List.filter passes (zip image_pred best)) in
  (forall i r p,
      image_pred !! i = Some r -> best !! i = Some p ->
      take num_classes (drop 5 r) !! p.2 = Some p.1
      /\ forall x, In x (take num_classes (drop 5 r)) -> x <= p.1)
  /\ (forall c, In c (zip image_pred best) ->
        (In c (List.filter passes (zip image_pred best))
         <-> conf_thre <= fused_conf c))
  /\ (forall c, In c (zip image_pred best) ->
        fused_conf c == conf_thre ->
        In (detection_row num_classes extras c) kept)
  /\ candidates_kept num_classes conf_thre extras image_pred = Ok kept
  /\ postprocess_image num_classes conf_thre nms_thre class_agnostic extras
       image_pred
     = match kept with
       | [] => Ok None
       | _ :: _ =>
           if (length image_pred =? 1)%nat then Raise IndexError
           else Ok (Some (suppress nms_thre class_agnostic kept))
       end.
Proof.
  intros Hbest passes kept. split.
  { intros i r [v j] Hr Hp. simpl.
    apply (row_max_spec _ v j).
    by apply (class_best_lookup num_classes image_pred best i). }
  pose proof (candidates_kept_filter num_classes conf_thre extras
                image_pred best Hbest) as Hkept.
  change (fun c : list Q * (Q * nat) => ge (nth 4 c.1 zero * c.2.1)%S conf_thre)
    with passes in Hkept.
  fold kept in Hkept.
  assert (Hin : forall c, In c (zip image_pred best) ->
    (In c (List.filter passes (zip image_pred best))
     <-> conf_thre <= fused_conf c)).
  { intros c Hc. unfold passes. rewrite List.filter_In, Qle_bool_iff. tauto. }
  split; [exact Hin |]. split.
  { intros c Hc Heq. apply List.in_map. apply Hin; [done |].
    rewrite Heq. apply Qle_refl. }
  split; [exact Hkept |].
  unfold postprocess_image. rewrite Hkept. cbn [rbind].
  destruct (length image_pred =? 0)%nat eqn:E0.
  - apply Nat.eqb_eq, length_zero_iff_nil in E0.
    unfold kept. by rewrite E0.
  - by destruct kept.
Qed.

(** The failing input of C2: one image with one candidate row whose fused
    confidence, 1 * 0.7, reaches the threshold 0.7. *)
Lemma conf_filter_inclusive_witness :
  class_best 2 [[0; 0; 10; 10; 1; 0.7; 0.1]] = Ok [(0.7, 0%nat)]
  /\ candidates_kept 2 0.7 false [[0; 0; 10; 10; 1; 0.7; 0.1]]
     = Ok [[0; 0; 10; 10; 1; 0.7; 0]]
  /\ postprocess_image 2 0.7 0.45 false false [[0; 0; 10; 10; 1; 0.7; 0.1]]
     = Raise IndexError.
Proof.
  assert (Hb : class_best 2 [[0; 0; 10; 10; 1; 0.7; 0.1]]
               = Ok [(0.7, 0%nat)]) by reflexivity.
  split; [exact Hb |].
  destruct (conf_filter_inclusive 2 0.7 0.45 false false _ _ Hb)
    as (_ & _ & _ & Hk & Hrun).
  split; [exact Hk | exact Hrun].
Defined.

(** ** postprocess: image by image *)

Section PerImage.
Context {F : Type} `{Scalar F}.

Lemma each_image_Forall2 {A B} (f : A -> result B) (l : list A)
    (ys : list B) :
  each_image f l = Ok ys -> Forall2 (fun x y => f x = Ok y) l ys.
Proof.
  revert ys. induction l as [|x l IH]; intros ys; simpl.
  - intros [= <-]. constructor.
  - destruct (f x) as [y |] eqn:Ex; [| done]. cbn [rbind].
    destruct (each_image f l) as [ys' |]; [| done]. cbn [rbind].
    intros [= <-]. constructor; [done | by apply IH].
Qed.

(** The output list has one entry per image, in image order, and entry [i]
    is what the loop body yields on image [i] of the converted tensor. *)
Lemma postprocess_per_image (prediction prediction' : Batch F)
    (num_classes : nat) (conf_thre nms_thre : F)
    (class_agnostic keypoints segs : bool)
    (output : list (option (list (list F)))) :
  postprocess prediction num_classes conf_thre nms_thre class_agnostic
    keypoints segs = Ok (prediction', output) ->
  images prediction' = map (map to_corner) (images prediction)
  /\ Forall2
       (fun image_pred o =>
          postprocess_image num_classes conf_thre nms_thre class_agnostic
            (keypoints || segs) image_pred = Ok o)
       (images prediction') output.
Proof.
  unfold postprocess. destruct (nchan prediction <? 4)%nat; [done |].
  cbn [images].
  destruct (each_image _ _) as [out |] eqn:E; [| done]. cbn [rbind].
  intros [= <- <-]. split; [done |]. by apply each_image_Forall2.
Qed.

(** The selection loop never runs out of fuel: any fuel that covers the
    length of the list gives the same selection. *)
Lemma select_fuel (suppresses : cand F -> cand F -> bool) (n m : nat)
    (l : list (cand F)) :
  (length l <= n)%nat -> (length l <= m)%nat ->
  select n suppresses l = select m suppresses l.
Proof.
  revert m l. induction n as [|n IH]; intros m l Hn Hm.
  - destruct l; [| simpl in Hn; lia]. by destruct m.
  - destruct l as [|c rest]; [by destruct m |].
    destruct m as [|m]; [simpl in Hm; lia |].
    simpl in *. f_equal.
    pose proof (List.filter_length_le
                  (fun d => negb (suppresses c d)) rest) as Hle.
    apply IH; lia.
Qed.

End PerImage.

(** ** postprocess: suppression of two detections *)

Lemma box_iou_sym (p q : list Q) : box_iou p q == box_iou q p.
Proof.
  unfold box_iou. cbn [zero add sub mul div maximum minimum Q_scalar].
  rewrite (Q.min_comm (nth 2 p 0) (nth 2 q 0)).
  rewrite (Q.max_comm (nth 0 p 0) (nth 0 q 0)).
  rewrite (Q.min_comm (nth 3 p 0) (nth 3 q 0)).
  rewrite (Q.max_comm (nth 1 p 0) (nth 1 q 0)).
  rewrite (Qplus_comm ((nth 2 p 0 - nth 0 p 0) * (nth 3 p 0 - nth 1 p 0))).
  reflexivity.
Qed.

Lemma suppress_two (nms_thre : Q) (class_agnostic : bool) (d1 d2 : list Q) :
  class_agnostic = true \/ nth 6 d1 0 == nth 6 d2 0 ->
  suppress nms_thre class_agnostic [d1; d2]
  = if Qlt_bool (det_score d1) (det_score d2)
    then (if Qlt_bool nms_thre (det_iou d2 d1) then [d2] else [d2; d1])
    else (if Qlt_bool nms_thre (det_iou d1 d2) then [d1] else [d1; d2]).
Proof.
  intros Hjoint.
  unfold suppress, nms, batched_nms, candidates, sort_desc, overlaps, gt,
    det_score, det_iou.
  destruct class_agnostic.
  - cbn -[box_iou take nth Qlt_bool].
    destruct (Qlt_bool (nth 4 d1 0 * nth 5 d1 0) (nth 4 d2 0 * nth 5 d2 0));
      cbn -[box_iou take nth Qlt_bool].
    + by destruct (Qlt_bool nms_thre (box_iou (take 4 d2) (take 4 d1))).
    + by destruct (Qlt_bool nms_thre (box_iou (take 4 d1) (take 4 d2))).
  - destruct Hjoint as [? | Hcls]; [done |].
    assert (H12 : Qeq_bool (nth 6 d1 0) (nth 6 d2 0) = true)
      by (by apply Qeq_bool_iff).
    assert (H21 : Qeq_bool (nth 6 d2 0) (nth 6 d1 0) = true)
      by (by apply Qeq_bool_iff).
    cbn -[box_iou take nth Qlt_bool Qeq_bool].
    destruct (Qlt_bool (nth 4 d1 0 * nth 5 d1 0) (nth 4 d2 0 * nth 5 d2 0));
      cbn -[box_iou take nth Qlt_bool Qeq_bool];
      rewrite ?H12, ?H21; cbn -[box_iou take nth Qlt_bool Qeq_bool].
    + by destruct (Qlt_bool nms_thre (box_iou (take 4 d2) (take 4 d1))).
    + by destruct (Qlt_bool nms_thre (box_iou (take 4 d1) (take 4 d2))).
Qed.

(** C3: when the confidence filter leaves exactly two detections that may
    suppress each other (class-agnostic mode, or equal class ids) and their
    fused scores differ, the image's result holds only the higher-scoring
    one if their IoU exceeds [nms_thre], and both, higher score first, if
    their IoU is at most [nms_thre]. *)
Theorem nms_two_detections (num_classes : nat) (conf_thre nms_thre : Q)
    (class_agnostic extras : bool) (image_pred : list (list Q))
    (d1 d2 : list Q) :
  candidates_kept num_classes conf_thre extras image_pred = Ok [d1; d2] ->
  class_agnostic = true \/ nth 6 d1 0 == nth 6 d2 0 ->
  ~ det_score d1 == det_score d2 ->
  let result :=
    postprocess_image num_classes conf_thre nms_thre class_agnostic extras
      image_pred in
  (det_score d2 < det_score d1 ->
     (nms_thre < det_iou d1 d2 -> result = Ok (Some [d1]))
     /\ (det_iou d1 d2 <= nms_thre -> result = Ok (Some [d1; d2])))
  /\ (det_score d1 < det_score d2 ->
       (nms_thre < det_iou d1 d2 -> result = Ok (Some [d2]))
       /\ (det_iou d1 d2 <= nms_thre -> result = Ok (Some [d2; d1]))).
Proof.
  intros Hkept Hjoint Hne result.
  assert (Hres : result = Ok (Some (suppress nms_thre class_agnostic [d1; d2]))).
  { unfold result, postprocess_image.
    pose proof (candidates_kept_length _ _ _ _ _ Hkept) as Hlen.
    simpl in Hlen. rewrite Hkept. cbn [rbind].
    destruct image_pred as [|r1 [|r2 l]]; simpl in Hlen; try lia.
    reflexivity. }
  rewrite Hres, (suppress_two _ _ _ _ Hjoint).
  split; intros Hs.
  - replace (Qlt_bool (det_score d1) (det_score d2)) with false
      by (symmetry; apply Qlt_bool_false_iff; by apply Qlt_le_weak).
    split; intros Hiou.
    + by replace (Qlt_bool nms_thre (det_iou d1 d2)) with true
        by (symmetry; by apply Qlt_bool_iff).
    + by replace (Qlt_bool nms_thre (det_iou d1 d2)) with false
        by (symmetry; by apply Qlt_bool_false_iff).
  - replace (Qlt_bool (det_score d1) (det_score d2)) with true
      by (symmetry; by apply Qlt_bool_iff).
    unfold det_iou. split; intros Hiou.
    + replace (Qlt_bool nms_thre (box_iou (take 4 d2) (take 4 d1))) with true;
        [done |].
      symmetry. apply Qlt_bool_iff. by rewrite box_iou_sym.
    + replace (Qlt_bool nms_thre (box_iou (take 4 d2) (take 4 d1))) with false;
        [done |].
      symmetry. apply Qlt_bool_false_iff. by rewrite box_iou_sym.
Qed.

Lemma nms_two_detections_witness :
  candidates_kept 2 0.7 false
    [[5; 5; 10; 10; 1; 0.9; 0.1]; [6; 6; 10; 10; 1; 0.8; 0.3]]
  = Ok [[5; 5; 10; 10; 1; 0.9; 0]; [6; 6; 10; 10; 1; 0.8; 0]]
  /\ postprocess_image 2 0.7 0.45 false false
       [[5; 5; 10; 10; 1; 0.9; 0.1]; [6; 6; 10; 10; 1; 0.8; 0.3]]
     = Ok (Some [[5; 5; 10; 10; 1; 0.9; 0]]).
Proof.
  assert (Hk : candidates_kept 2 0.7 false
                 [[5; 5; 10; 10; 1; 0.9; 0.1]; [6; 6; 10; 10; 1; 0.8; 0.3]]
               = Ok [[5; 5; 10; 10; 1; 0.9; 0]; [6; 6; 10; 10; 1; 0.8; 0]])
    by reflexivity.
  split; [exact Hk |].
  apply (nms_two_detections 2 0.7 0.45 false false _ _ _ Hk).
  - right. reflexivity.
  - discriminate.
  - reflexivity.
  - reflexivity.
Defined.

(** ** A small program logic for the heap

    The rules are phrased for proofs that track, for the current heap [h],
    the cells they know ([h !! l = Some t]) and the fact that the heap of
    the caller, [h0], is still contained in it ([h0 ⊆ h]). *)

Section HeapLogic.
Context {F : Type} `{Scalar F}.
Implicit Types (h : gmap loc (tensor F)) (l : loc) (t : tensor F).

Lemma wp_ret {A} (a : A) h (post : A -> gmap loc (tensor F) -> Prop) :
  post a h -> wp (ret a) h post.
Proof. intros Hp. by exists a, h. Qed.

Lemma wp_bind {A B} (c : M F A) (k : A -> M F B) h
    (post : B -> gmap loc (tensor F) -> Prop) :
  wp c h (fun a h' => wp (k a) h' post) -> wp (bind c k) h post.
Proof.
  intros (a & h' & Hc & b & h'' & Hk & Hp).
  exists b, h''. split; [| done]. unfold bind. by rewrite Hc.
Qed.

Lemma wp_read l t h (post : tensor F -> gmap loc (tensor F) -> Prop) :
  h !! l = Some t -> post t h -> wp (read l) h post.
Proof.
  intros Hl Hp. exists t, h. split; [| done]. unfold read. by rewrite Hl.
Qed.

Lemma wp_read_vec l d v h (post : list F -> gmap loc (tensor F) -> Prop) :
  h !! l = Some (T1 d v) -> post v h -> wp (read_vec l) h post.
Proof.
  intros Hl Hp. apply wp_bind, (wp_read l (T1 d v)); [done |].
  by apply wp_ret.
Qed.

Lemma wp_read_mat l d m h (post : Mat F -> gmap loc (tensor F) -> Prop) :
  h !! l = Some (T2 d m) -> post m h -> wp (read_mat l) h post.
Proof.
  intros Hl Hp. apply wp_bind, (wp_read l (T2 d m)); [done |].
  by apply wp_ret.
Qed.

Lemma wp_read_cube l d c h (post : Cube F -> gmap loc (tensor F) -> Prop) :
  h !! l = Some (T3 d c) -> post c h -> wp (read_cube l) h post.
Proof.
  intros Hl Hp. apply wp_bind, (wp_read l (T3 d c)); [done |].
  by apply wp_ret.
Qed.

Lemma wp_dtype_at l t h (post : dtype -> gmap loc (tensor F) -> Prop) :
  h !! l = Some t -> post (dtype_of t) h -> wp (dtype_at l) h post.
Proof.
  intros Hl Hp. apply wp_bind, (wp_read l t); [done |].
  by apply wp_ret.
Qed.

(** A computation that returns normally, followed by one that ends in
    either way. *)
Lemma wpr_bind {A B} (c : M F A) (k : A -> M F B) h
    (post : result B -> gmap loc (tensor F) -> Prop) :
  wp c h (fun a h' => wpr (k a) h' post) -> wpr (bind c k) h post.
Proof.
  intros (a & h' & Hc & Hk). unfold wpr, bind. by rewrite Hc.
Qed.

(** A computation that may raise, followed by another. *)
Lemma wpr_bind_any {A B} (c : M F A) (k : A -> M F B) h
    (post : result B -> gmap loc (tensor F) -> Prop) :
  wpr c h
    (fun res h' =>
       match res with
       | Ok a => wpr (k a) h' post
       | Raise e => post (Raise e) h'
       end) ->
  wpr (bind c k) h post.
Proof.
  unfold wpr, bind. by destruct (c h) as [[a | e] h'].
Qed.

(** In-place division of an integer tensor. *)
Lemma wpr_div_integral x y dy (mx my : Mat F) h
    (post : result unit -> gmap loc (tensor F) -> Prop) :
  h !! x = Some (T2 Integral mx) -> h !! y = Some (T2 dy my) ->
  post (Raise RuntimeError) h ->
  wpr (div_ x y) h post.
Proof.
  intros Hx Hy Hp. unfold wpr, div_, bind, read. by rewrite Hx, Hy.
Qed.

Variable h0 : gmap loc (tensor F).

Lemma wp_new t h (post : loc -> gmap loc (tensor F) -> Prop) :
  h0 ⊆ h ->
  (forall l h',
      h0 ⊆ h' -> h0 !! l = None -> h' !! l = Some t ->
      (forall x v, h !! x = Some v -> h' !! x = Some v /\ x <> l) ->
      post l h') ->
  wp (new t) h post.
Proof.
  intros Hext Hp. exists (fresh (dom h)), (<[fresh (dom h) := t]> h).
  split; [done |].
  assert (Hfresh : h !! fresh (dom h) = None).
  { apply not_elem_of_dom, is_fresh. }
  apply Hp.
  - etrans; [exact Hext |]. by apply insert_subseteq.
  - by apply (lookup_weaken_None h0 h).
  - apply lookup_insert_eq.
  - intros x v Hx.
    assert (x <> fresh (dom h)) by (intros ->; congruence).
    split; [| done]. by rewrite lookup_insert_ne.
Qed.

Lemma wp_write l t h (post : unit -> gmap loc (tensor F) -> Prop) :
  h0 ⊆ h -> h0 !! l = None -> is_Some (h !! l) ->
  (forall h',
      h0 ⊆ h' -> h' !! l = Some t ->
      (forall x v, x <> l -> h !! x = Some v -> h' !! x = Some v) ->
      post tt h') ->
  wp (write l t) h post.
Proof.
  intros Hext Hl [old Hold] Hp. exists tt, (<[l := t]> h).
  split; [unfold write; by rewrite Hold |].
  apply Hp.
  - by apply insert_subseteq_r.
  - apply lookup_insert_eq.
  - intros x v Hne Hx. by rewrite lookup_insert_ne.
Qed.

Lemma wp_del l h (post : unit -> gmap loc (tensor F) -> Prop) :
  h0 ⊆ h -> h0 !! l = None ->
  (forall h',
      h0 ⊆ h' ->
      (forall x v, x <> l -> h !! x = Some v -> h' !! x = Some v) ->
      post tt h') ->
  wp (del l) h post.
Proof.
  intros Hext Hl Hp. exists tt, (delete l h). split; [done |].
  apply Hp.
  - apply map_subseteq_spec. intros x v Hx.
    assert (x <> l) by (intros ->; congruence).
    rewrite lookup_delete_ne by done.
    by apply (lookup_weaken h0 h).
  - intros x v Hne Hx. by rewrite lookup_delete_ne.
Qed.

(** [sub_] between two tensors of one element type. *)
Lemma wp_sub_ x y d (cx cy : Cube F) h
    (post : unit -> gmap loc (tensor F) -> Prop) :
  h0 ⊆ h -> h0 !! x = None ->
  h !! x = Some (T3 d cx) -> h !! y = Some (T3 d cy) ->
  (forall h',
      h0 ⊆ h' ->
      h' !! x
      = Some (T3 d (mkCube (cdim1 cx) (zip3 sub (slabs cx) (slabs cy)))) ->
      (forall z v, z <> x -> h !! z = Some v -> h' !! z = Some v) ->
      post tt h') ->
  wp (sub_ x y) h post.
Proof.
  intros Hext Hn Hx Hy Hp. unfold sub_.
  apply wp_bind, (wp_read x (T3 d cx)); [done |].
  apply wp_bind, (wp_read y (T3 d cy)); [done |].
  replace (can_cast (promote d d) d) with true by (by destruct d).
  by apply wp_write.
Qed.

Lemma wp_clamp_min_ x (v : F) d (cx : Cube F) h
    (post : unit -> gmap loc (tensor F) -> Prop) :
  h0 ⊆ h -> h0 !! x = None -> h !! x = Some (T3 d cx) ->
  (forall h',
      h0 ⊆ h' ->
      h' !! x
      = Some (T3 d (mkCube (cdim1 cx)
                      (map (map (map (fun e => maximum e v))) (slabs cx)))) ->
      (forall z u, z <> x -> h !! z = Some u -> h' !! z = Some u) ->
      post tt h') ->
  wp (clamp_min_ x v) h post.
Proof.
  intros Hext Hn Hx Hp. unfold clamp_min_.
  apply wp_bind, (wp_read x (T3 d cx)); [done |].
  by apply wp_write.
Qed.

(** [div_] on a floating-point tensor. *)
Lemma wp_div_ x y dy (mx my : Mat F) h
    (post : unit -> gmap loc (tensor F) -> Prop) :
  h0 ⊆ h -> h0 !! x = None ->
  h !! x = Some (T2 Floating mx) -> h !! y = Some (T2 dy my) ->
  (forall h',
      h0 ⊆ h' ->
      h' !! x
      = Some (T2 Floating (mkMat (ncols mx) (zip2 div (rows mx) (rows my)))) ->
      (forall z v, z <> x -> h !! z = Some v -> h' !! z = Some v) ->
      post tt h') ->
  wp (div_ x y) h post.
Proof.
  intros Hext Hn Hx Hy Hp. unfold div_.
  apply wp_bind, (wp_read x (T2 Floating mx)); [done |].
  apply wp_bind, (wp_read y (T2 dy my)); [done |].
  by apply wp_write.
Qed.

Lemma wp_prod2 x d (cx : Cube F) h
    (post : loc -> gmap loc (tensor F) -> Prop) :
  h0 ⊆ h -> h !! x = Some (T3 d cx) ->
  (forall l h',
      h0 ⊆ h' -> h0 !! l = None ->
      h' !! l = Some (T2 d (mkMat (cdim1 cx) (map (map prod) (slabs cx)))) ->
      (forall z v, h !! z = Some v -> h' !! z = Some v /\ z <> l) ->
      post l h') ->
  wp (prod2 x) h post.
Proof.
  intros Hext Hx Hp. unfold prod2.
  apply wp_bind, (wp_read x (T3 d cx)); [done |].
  by apply wp_new.
Qed.

End HeapLogic.

(** ** bboxes_iou: what a call returns and what it leaves untouched *)

Ltac solve_ne := first [assumption | apply not_eq_sym; assumption].

(** Carry the known cells of heap [h] over an allocation or an update. *)
Ltac carry_new h Hk :=
  repeat match goal with
  | Hx : h !! ?x = Some ?v |- _ =>
      let Hx' := fresh Hx in
      let Hne := fresh "Hne" in
      destruct (Hk x v Hx) as [Hx' Hne]; clear Hx
  end;
  clear Hk.

Ltac carry_write h l Hk :=
  repeat match goal with
  | Hx : h !! l = Some _ |- _ => clear Hx
  | Hx : h !! ?x = Some ?v |- _ => apply (Hk x v ltac:(solve_ne)) in Hx
  end;
  clear Hk.

Ltac wp_alloc h0 h Hext :=
  let l := fresh "l" in
  let h' := fresh "h" in
  let Hext' := fresh "Hext" in
  let Hn := fresh "Hn" in
  let Hl := fresh "Hl" in
  let Hk := fresh "Hk" in
  intros l h' Hext' Hn Hl Hk; carry_new h Hk; clear Hext; clear dependent h.

Ltac wp_update h0 h x Hext :=
  let h' := fresh "h" in
  let Hext' := fresh "Hext" in
  let Hl := fresh "Hl" in
  let Hk := fresh "Hk" in
  intros h' Hext' Hl Hk; carry_write h x Hk; clear Hext; clear dependent h.

Ltac wp_free h0 h x Hext :=
  let h' := fresh "h" in
  let Hext' := fresh "Hext" in
  let Hk := fresh "Hk" in
  intros h' Hext' Hk; carry_write h x Hk; clear Hext; clear dependent h.

Ltac wp_step :=
  lazymatch goal with
  | |- wp (bind _ _) _ _ => apply wp_bind
  | |- wp (ret _) _ _ => apply wp_ret; cbv beta iota
  | |- wp (read _) _ _ => eapply wp_read; [eassumption |]
  | |- wp (read_mat _) _ _ => eapply wp_read_mat; [eassumption |]
  | |- wp (read_vec _) _ _ => eapply wp_read_vec; [eassumption |]
  | |- wp (read_cube _) _ _ => eapply wp_read_cube; [eassumption |]
  | |- wp (dtype_at _) _ _ =>
      eapply wp_dtype_at; [eassumption |]; cbn [dtype_of]
  | |- wpr (bind (div_ _ _) _) _ _ => apply wpr_bind_any
  | |- wpr (bind _ _) _ _ => apply wpr_bind
  | |- wpr (div_ _ _) _ _ =>
      eapply wpr_div_integral; [eassumption | eassumption |];
      cbv beta iota
  | Hext : ?h0 ⊆ ?h |- wp (new _) ?h _ =>
      apply (wp_new h0 _ h _ Hext); wp_alloc h0 h Hext
  | Hext : ?h0 ⊆ ?h |- wp (prod2 _) ?h _ =>
      eapply (wp_prod2 h0); [exact Hext | eassumption |];
      wp_alloc h0 h Hext
  | Hext : ?h0 ⊆ ?h |- wp (sub_ ?x _) ?h _ =>
      eapply (wp_sub_ h0);
      [exact Hext | eassumption | eassumption | eassumption |];
      wp_update h0 h x Hext
  | Hext : ?h0 ⊆ ?h |- wp (clamp_min_ ?x _) ?h _ =>
      eapply (wp_clamp_min_ h0); [exact Hext | eassumption | eassumption |];
      wp_update h0 h x Hext
  | Hext : ?h0 ⊆ ?h |- wp (div_ ?x _) ?h _ =>
      eapply (wp_div_ h0);
      [exact Hext | eassumption | eassumption | eassumption |];
      wp_update h0 h x Hext
  | Hext : ?h0 ⊆ ?h |- wp (del ?x) ?h _ =>
      apply (wp_del h0 x h _ Hext); [eassumption |];
      wp_free h0 h x Hext
  end.

Section BboxesIouSpec.
Context {F : Type} `{Scalar F}.

Lemma bboxes_iou_spec (h0 h : gmap loc (tensor F)) (bboxes_a bboxes_b : loc)
    (da db : dtype) (a b : Mat F) (xyxy inplace : bool) :
  h0 ⊆ h ->
  h !! bboxes_a = Some (T2 da a) -> h !! bboxes_b = Some (T2 db b) ->
  ncols a = 4%nat -> ncols b = 4%nat ->
  integral_in_place da db xyxy inplace = false ->
  wp (bboxes_iou bboxes_a bboxes_b xyxy inplace) h
    (fun r h' =>
       h0 ⊆ h' /\ h0 !! r = None
       /\ h' !! r = Some (T2 Floating (iou_matrix xyxy a b))).
Proof.
  intros Hext Ha Hb Hca Hcb Hdt.
  unfold bboxes_iou.
  do 2 (wp_step; wp_step).
  cbn [wrong_width shape1 dtype_of]. rewrite Hca, Hcb.
  cbn [Nat.eqb negb orb].
  destruct inplace, xyxy, da, db; try discriminate Hdt; clear Hdt;
    repeat wp_step;
    (split; [assumption | split; [assumption |]]);
    match goal with
    | Hx : ?h' !! ?r = Some _ |- ?h' !! ?r = Some _ => exact Hx
    end.
Qed.

Lemma bboxes_iou_returns (h : gmap loc (tensor F)) (bboxes_a bboxes_b : loc)
    (da db : dtype) (a b : Mat F) (xyxy inplace : bool) :
  h !! bboxes_a = Some (T2 da a) -> h !! bboxes_b = Some (T2 db b) ->
  ncols a = 4%nat -> ncols b = 4%nat ->
  integral_in_place da db xyxy inplace = false ->
  exists r h',
    bboxes_iou bboxes_a bboxes_b xyxy inplace h = (Ok r, h')
    /\ h ⊆ h' /\ h !! r = None
    /\ h' !! r = Some (T2 Floating (iou_matrix xyxy a b)).
Proof.
  intros Ha Hb Hca Hcb Hdt.
  apply (bboxes_iou_spec h h bboxes_a bboxes_b da db a b xyxy inplace);
    [reflexivity | done..].
Qed.

(** Two integer tensors in corner form with [inplace] set: the call gets as
    far as line 121 and raises there, with its intermediate tensors
    allocated and the heap it found still in place. *)
Lemma bboxes_iou_integral (h : gmap loc (tensor F)) (bboxes_a bboxes_b : loc)
    (da db : dtype) (a b : Mat F) (xyxy inplace : bool) :
  h !! bboxes_a = Some (T2 da a) -> h !! bboxes_b = Some (T2 db b) ->
  ncols a = 4%nat -> ncols b = 4%nat ->
  integral_in_place da db xyxy inplace = true ->
  exists h',
    bboxes_iou bboxes_a bboxes_b xyxy inplace h = (Raise RuntimeError, h')
    /\ h ⊆ h'.
Proof.
  intros Ha Hb Hca Hcb Hdt.
  destruct inplace, xyxy, da, db; try discriminate Hdt; clear Hdt.
  assert (Hext : h ⊆ h) by reflexivity. revert Hext.
  generalize h at 1 4. intros h0 Hext.
  assert (Hrun : wpr (bboxes_iou bboxes_a bboxes_b true true) h
                   (fun res h' => res = Raise RuntimeError /\ h0 ⊆ h')).
  { unfold bboxes_iou.
    do 2 (wp_step; wp_step).
    cbn [wrong_width shape1 dtype_of]. rewrite Hca, Hcb.
    cbn [Nat.eqb negb orb].
    repeat wp_step. by split. }
  unfold wpr in Hrun. destruct Hrun as [Hres Hsub].
  exists (bboxes_iou bboxes_a bboxes_b true true h).2.
  split; [| done].
  rewrite <- Hres. by destruct (bboxes_iou _ _ _ _ h).
Qed.

(** The three ways a call can fail before it has touched the heap. *)
Lemma bboxes_iou_dangling (h : gmap loc (tensor F)) (bboxes_a bboxes_b : loc)
    (xyxy inplace : bool) :
  h !! bboxes_a = None \/ h !! bboxes_b = None ->
  bboxes_iou bboxes_a bboxes_b xyxy inplace h = (Raise RuntimeError, h).
Proof.
  intros Hnone. unfold bboxes_iou, bind at 1 2, read.
  destruct (h !! bboxes_a) as [ta |]; [| done].
  destruct Hnone as [? | ->]; done.
Qed.

Lemma bboxes_iou_checks_columns (h : gmap loc (tensor F))
    (bboxes_a bboxes_b : loc) (ta tb : tensor F) (xyxy inplace : bool) :
  h !! bboxes_a = Some ta -> h !! bboxes_b = Some tb ->
  wrong_width ta || wrong_width tb = true ->
  bboxes_iou bboxes_a bboxes_b xyxy inplace h = (Raise IndexError, h).
Proof.
  intros Ha Hb Hc. unfold bboxes_iou, bind at 1 2, read.
  by rewrite Ha, Hb, Hc.
Qed.

Lemma bboxes_iou_rank3 (h : gmap loc (tensor F)) (bboxes_a bboxes_b : loc)
    (ta tb : tensor F) (xyxy inplace : bool) :
  h !! bboxes_a = Some ta -> h !! bboxes_b = Some tb ->
  wrong_width ta || wrong_width tb = false ->
  (exists d c, ta = T3 d c) \/ (exists d c, tb = T3 d c) ->
  bboxes_iou bboxes_a bboxes_b xyxy inplace h = (Raise RuntimeError, h).
Proof.
  intros Ha Hb Hc Hrank.
  apply orb_false_iff in Hc as [Hwa Hwb].
  destruct ta as [da va | da a | da ca]; [done | |];
    (destruct tb as [db vb | db b | db cb]; [done | |]);
    try (exfalso; destruct Hrank as [(d & c & ?) | (d & c & ?)]; congruence);
    unfold bboxes_iou, bind at 1 2, read; rewrite Ha, Hb, Hwa, Hwb;
    cbn [orb]; destruct inplace, xyxy;
    unfold bind, read_mat, bind, read, ret, raise; rewrite ?Ha, ?Hb;
    reflexivity.
Qed.

Lemma wrong_width_iff (t : tensor F) :
  wrong_width t = true <-> shape1 t <> Ok 4%nat.
Proof.
  unfold wrong_width. destruct (shape1 t) as [c | e]; [| done].
  rewrite negb_true_iff, Nat.eqb_neq. split; [congruence |].
  intros Hc ->. done.
Qed.

(** Every call, whether it returns or raises, ends with a heap that
    contains the one it found. *)
Lemma bboxes_iou_outcome (h : gmap loc (tensor F)) (bboxes_a bboxes_b : loc)
    (xyxy inplace : bool) :
  h ⊆ (bboxes_iou bboxes_a bboxes_b xyxy inplace h).2.
Proof.
  destruct (h !! bboxes_a) as [ta |] eqn:Ea; cycle 1.
  { rewrite bboxes_iou_dangling by (by left). done. }
  destruct (h !! bboxes_b) as [tb |] eqn:Eb; cycle 1.
  { rewrite bboxes_iou_dangling by (by right). done. }
  destruct (wrong_width ta || wrong_width tb) eqn:Ew.
  { by rewrite (bboxes_iou_checks_columns h _ _ ta tb). }
  destruct ta as [da va | da a | da ca];
    [by rewrite orb_false_iff in Ew; destruct Ew | |
     rewrite (bboxes_iou_rank3 h _ _ (T3 da ca) tb) by eauto; done].
  destruct tb as [db vb | db b | db cb];
    [by rewrite orb_false_iff in Ew; destruct Ew | |
     rewrite (bboxes_iou_rank3 h _ _ (T2 da a) (T3 db cb)) by eauto; done].
  apply orb_false_iff in Ew as [Hwa Hwb].
  cbn [wrong_width shape1] in Hwa, Hwb.
  apply negb_false_iff, Nat.eqb_eq in Hwa, Hwb.
  destruct (integral_in_place da db xyxy inplace) eqn:Hdt.
  - destruct (bboxes_iou_integral h bboxes_a bboxes_b da db a b xyxy inplace
                Ea Eb Hwa Hwb Hdt) as (h1 & -> & Hsub).
    done.
  - destruct (bboxes_iou_returns h bboxes_a bboxes_b da db a b xyxy inplace
                Ea Eb Hwa Hwb Hdt) as (r & h1 & -> & Hsub & _).
    done.
Qed.

End BboxesIouSpec.

Lemma integral_in_place_corner (da db : dtype) (inplace : bool) :
  inplace = false \/ da = Floating \/ db = Floating ->
  integral_in_place da db true inplace = false.
Proof.
  destruct inplace, da, db; try done. by intros [? | [? | ?]].
Qed.

Lemma integral_in_place_off (da db : dtype) (xyxy inplace : bool) :
  xyxy = false \/ inplace = false \/ da = Floating \/ db = Floating ->
  integral_in_place da db xyxy inplace = false.
Proof.
  destruct xyxy, inplace, da, db; try done. by intros [? | [? | [? | ?]]].
Qed.

Lemma integral_in_place_swap (da db : dtype) (xyxy inplace : bool) :
  integral_in_place db da xyxy inplace = integral_in_place da db xyxy inplace.
Proof. by destruct da, db. Qed.




(** C6: a call raises IndexError exactly when one of its two arguments does
    not have four columns (its [shape[1]] is not 4, or it has no such axis).
    When both are 2-D tensors with four columns the call returns normally,
    unless it has to divide an integer tensor in place, which ends in
    RuntimeError. *)
Theorem bboxes_iou_index_error {F : Type} `{Scalar F}
    (h : gmap loc (tensor F)) (bboxes_a bboxes_b : loc) (ta tb : tensor F)
    (xyxy inplace : bool) :
  h !! bboxes_a = Some ta -> h !! bboxes_b = Some tb ->
  ((bboxes_iou bboxes_a bboxes_b xyxy inplace h).1 = Raise IndexError
   <-> shape1 ta <> Ok 4%nat \/ shape1 tb <> Ok 4%nat)
  /\ (forall da db a b,
        ta = T2 da a -> tb = T2 db b -> ncols a = 4%nat -> ncols b = 4%nat ->
        if integral_in_place da db xyxy inplace
        then (bboxes_iou bboxes_a bboxes_b xyxy inplace h).1
             = Raise RuntimeError
        else exists r, (bboxes_iou bboxes_a bboxes_b xyxy inplace h).1 = Ok r).
Proof.
  intros Ha Hb.
  assert (Hfour : forall da db a b,
    ta = T2 da a -> tb = T2 db b -> ncols a = 4%nat -> ncols b = 4%nat ->
    if integral_in_place da db xyxy inplace
    then (bboxes_iou bboxes_a bboxes_b xyxy inplace h).1 = Raise RuntimeError
    else exists r, (bboxes_iou bboxes_a bboxes_b xyxy inplace h).1 = Ok r).
  { intros da db a b -> -> Hca Hcb.
    destruct (integral_in_place da db xyxy inplace) eqn:Hdt.
    - destruct (bboxes_iou_integral h bboxes_a bboxes_b da db a b xyxy
                  inplace Ha Hb Hca Hcb Hdt) as (h' & -> & _).
      done.
    - destruct (bboxes_iou_returns h bboxes_a bboxes_b da db a b xyxy
                  inplace Ha Hb Hca Hcb Hdt) as (r & h' & -> & _).
      by exists r. }
  split; [| exact Hfour].
  rewrite <- !wrong_width_iff, <- orb_true_iff.
  destruct (wrong_width ta || wrong_width tb) eqn:Ew.
  - by rewrite (bboxes_iou_checks_columns h _ _ ta tb).
  - split; [| done]. intros Hraise. exfalso.
    assert (Hwa : wrong_width ta = false /\ wrong_width tb = false)
      by (by apply orb_false_iff).
    destruct Hwa as [Hwa Hwb].
    destruct ta as [da va | da a | da ca]; [done | |];
      [| rewrite (bboxes_iou_rank3 h _ _ (T3 da ca) tb) in Hraise by eauto;
         done].
    destruct tb as [db vb | db b | db cb]; [done | |];
      [| rewrite (bboxes_iou_rank3 h _ _ (T2 da a) (T3 db cb)) in Hraise
           by eauto;
         done].
    cbn [wrong_width shape1] in Hwa, Hwb.
    apply negb_false_iff, Nat.eqb_eq in Hwa, Hwb.
    specialize (Hfour da db a b eq_refl eq_refl Hwa Hwb).
    destruct (integral_in_place da db xyxy inplace).
    + rewrite Hfour in Hraise. done.
    + destruct Hfour as [r Hr]. rewrite Hr in Hraise. done.
Qed.

Lemma bboxes_iou_index_error_witness :
  let a := mkMat 4 [[0; 0; 10; 10]] in
  let b := mkMat 5 [[5; 5; 15; 15; 1]] in
  let h : gmap loc (tensor Q) :=
    {[ 1%positive := T2 Floating a; 2%positive := T2 Floating b ]} in
  (bboxes_iou 1%positive 2%positive true true h).1 = Raise IndexError
  /\ exists r, (bboxes_iou 1%positive 1%positive true true h).1 = Ok r.
Proof.
  intros a b h. split.
  - apply (bboxes_iou_index_error h 1%positive 2%positive
             (T2 Floating a) (T2 Floating b) true true);
      [reflexivity | reflexivity |].
    right. discriminate.
  - exact (proj2 (bboxes_iou_index_error h 1%positive 1%positive
                    (T2 Floating a) (T2 Floating a) true true
                    eq_refl eq_refl)
             Floating Floating a a eq_refl eq_refl eq_refl eq_refl).
Defined.

(** C10: whatever the arguments and flags, and whether the call returns or
    raises, every tensor that was on the heap before the call is there
    afterwards with the same contents; in particular both arguments are
    unchanged. *)
Theorem bboxes_iou_leaves_inputs {F : Type} `{Scalar F}
    (h : gmap loc (tensor F)) (bboxes_a bboxes_b : loc)
    (xyxy inplace : bool) :
  let h' := (bboxes_iou bboxes_a bboxes_b xyxy inplace h).2 in
  (forall l t, h !! l = Some t -> h' !! l = Some t)
  /\ h' !! bboxes_a = h !! bboxes_a
  /\ h' !! bboxes_b = h !! bboxes_b.
Proof.
  intros h'.
  pose proof (bboxes_iou_outcome h bboxes_a bboxes_b xyxy inplace) as Hsub.
  fold h' in Hsub.
  split; [intros l t Hl; by apply (lookup_weaken h h') |].
  destruct (h !! bboxes_a) as [ta |] eqn:Ea; cycle 1.
  { unfold h'. rewrite bboxes_iou_dangling by (by left). cbn [snd].
    by rewrite Ea. }
  destruct (h !! bboxes_b) as [tb |] eqn:Eb; cycle 1.
  { unfold h'. rewrite bboxes_iou_dangling by (by right). cbn [snd].
    by rewrite Ea, Eb. }
  split; by apply (lookup_weaken h h').
Qed.

(** ** Entries of the IoU matrices *)

Lemma list_lookup_map {A B} (f : A -> B) (l : list A) (i : nat) :
  map f l !! i = f <$> (l !! i).
Proof. apply list_lookup_fmap. Qed.

Ltac lookup_rows Hp Hq :=
  repeat first
    [ rewrite lookup_zip_with
    | rewrite list_lookup_fmap
    | rewrite list_lookup_map
    | rewrite Hp
    | rewrite Hq
    | progress cbn [mbind option_bind fmap option_fmap option_map] ].

Section Entries.
Context {F : Type} `{Scalar F}.

Lemma iou_matrix_entry (xyxy : bool) (a b : Mat F) (i j : nat)
    (p q : list F) :
  rows a !! i = Some p -> rows b !! j = Some q ->
  entry (iou_matrix xyxy a b) i j = Some (pair_iou xyxy p q).
Proof.
  intros Hp Hq.
  unfold entry, iou_matrix, centre_tl, centre_br, zip2, zip3, outer, lo, hi.
  cbn [rows].
  destruct xyxy; lookup_rows Hp Hq; reflexivity.
Qed.

Lemma matrix_iou_entry (a b : Mat F) (i j : nat) (p q : list F) :
  rows a !! i = Some p -> rows b !! j = Some q ->
  entry (matrix_iou a b) i j = Some (pair_matrix_iou p q).
Proof.
  intros Hp Hq.
  unfold entry, matrix_iou, zip2, zip3, outer, lo, hi.
  cbn [rows].
  lookup_rows Hp Hq; reflexivity.
Qed.

End Entries.

(** ** IoU of disjoint boxes and of a box with itself *)

Lemma Qdiv_0_num (d : Q) : 0 / d == 0.
Proof. unfold Qdiv. apply Qmult_0_l. Qed.

Lemma clamped_gap_zero (lo1 lo2 hi1 hi2 : Q) :
  hi1 <= lo2 \/ hi2 <= lo1 ->
  Qmax (Qmin hi1 hi2 - Qmax lo1 lo2) 0 == 0.
Proof.
  intros Hgap. apply Q.max_r.
  pose proof (Q.le_min_l hi1 hi2). pose proof (Q.le_min_r hi1 hi2).
  pose proof (Q.le_max_l lo1 lo2). pose proof (Q.le_max_r lo1 lo2).
  destruct Hgap; lra.
Qed.

Lemma gap_not_positive (lo1 lo2 hi1 hi2 : Q) :
  hi1 <= lo2 \/ hi2 <= lo1 ->
  Qlt_bool (Qmax lo1 lo2) (Qmin hi1 hi2) = false.
Proof.
  intros Hgap. apply Qlt_bool_false_iff.
  pose proof (Q.le_min_l hi1 hi2). pose proof (Q.le_min_r hi1 hi2).
  pose proof (Q.le_max_l lo1 lo2). pose proof (Q.le_max_r lo1 lo2).
  destruct Hgap; lra.
Qed.

Lemma pair_iou_disjoint (p q : list Q) :
  proper_box p -> proper_box q -> disjoint_boxes p q ->
  pair_iou true p q == 0.
Proof.
  intros (x1 & y1 & x2 & y2 & -> & Hx & Hy)
         (u1 & v1 & u2 & v2 & -> & Hu & Hv) Hd.
  unfold disjoint_boxes in Hd. cbn [nth] in Hd.
  unfold pair_iou, prod.
  cbn [take drop zip_with map fold_left
       zero one add sub mul div maximum minimum Q_scalar].
  assert (Hzero :
    1 * Qmax (Qmin x2 u2 - Qmax x1 u1) 0 * Qmax (Qmin y2 v2 - Qmax y1 v1) 0
    == 0).
  { destruct Hd as [Hd | [Hd | [Hd | Hd]]].
    - rewrite (clamped_gap_zero x1 u1 x2 u2) by tauto. ring.
    - rewrite (clamped_gap_zero x1 u1 x2 u2) by tauto. ring.
    - rewrite (clamped_gap_zero y1 v1 y2 v2) by tauto. ring.
    - rewrite (clamped_gap_zero y1 v1 y2 v2) by tauto. ring. }
  rewrite Hzero. apply Qdiv_0_num.
Qed.

Lemma pair_matrix_iou_disjoint (p q : list Q) :
  proper_box p -> proper_box q -> disjoint_boxes p q ->
  pair_matrix_iou p q == 0.
Proof.
  intros (x1 & y1 & x2 & y2 & -> & Hx & Hy)
         (u1 & v1 & u2 & v2 & -> & Hu & Hv) Hd.
  unfold disjoint_boxes in Hd. cbn [nth] in Hd.
  unfold pair_matrix_iou, prod, all_true.
  cbn [take drop zip_with map fold_left forallb id
       zero one add sub mul div maximum minimum lt eps Q_scalar].
  assert (Hmask :
    Qlt_bool (Qmax x1 u1) (Qmin x2 u2)
    && (Qlt_bool (Qmax y1 v1) (Qmin y2 v2) && true) = false).
  { destruct Hd as [Hd | [Hd | [Hd | Hd]]].
    - rewrite (gap_not_positive x1 u1 x2 u2) by tauto. done.
    - rewrite (gap_not_positive x1 u1 x2 u2) by tauto. done.
    - rewrite (gap_not_positive y1 v1 y2 v2) by tauto. apply andb_false_r.
    - rewrite (gap_not_positive y1 v1 y2 v2) by tauto. apply andb_false_r. }
  rewrite Hmask. cbn [of_bool zero Q_scalar].
  rewrite Qmult_0_r. apply Qdiv_0_num.
Qed.

Lemma pair_iou_self (p : list Q) :
  proper_box p -> pair_iou true p p == 1.
Proof.
  intros (x1 & y1 & x2 & y2 & -> & Hx & Hy).
  unfold pair_iou, prod.
  cbn [take drop zip_with map fold_left
       zero one add sub mul div maximum minimum Q_scalar].
  rewrite !Q.min_id, !Q.max_id.
  rewrite (Q.max_l (x2 - x1) 0) by lra.
  rewrite (Q.max_l (y2 - y1) 0) by lra.
  field. intros Hz.
  assert (Hpos : 0 < (x2 - x1) * (y2 - y1))
    by (apply Qmult_lt_0_compat; lra).
  lra.
Qed.

Lemma pair_matrix_iou_self (p : list Q) :
  proper_box p ->
  pair_matrix_iou p p == box_area p / (box_area p + eps)
  /\ pair_matrix_iou p p < 1.
Proof.
  intros (x1 & y1 & x2 & y2 & -> & Hx & Hy).
  assert (Hpos : 0 < (x2 - x1) * (y2 - y1))
    by (apply Qmult_lt_0_compat; lra).
  assert (Heps : 0 < eps) by reflexivity.
  assert (Hval :
    pair_matrix_iou [x1; y1; x2; y2] [x1; y1; x2; y2]
    == (x2 - x1) * (y2 - y1) / ((x2 - x1) * (y2 - y1) + eps)).
  { unfold pair_matrix_iou, prod, all_true.
    cbn [take drop zip_with map fold_left forallb id
         zero one add sub mul div maximum minimum lt Q_scalar].
    replace (Qlt_bool (Qmax x1 x1) (Qmin x2 x2)) with true
      by (symmetry; apply Qlt_bool_iff; by rewrite Q.max_id, Q.min_id).
    replace (Qlt_bool (Qmax y1 y1) (Qmin y2 y2)) with true
      by (symmetry; apply Qlt_bool_iff; by rewrite Q.max_id, Q.min_id).
    cbn [andb of_bool one Q_scalar].
    rewrite !Q.min_id, !Q.max_id.
    field. lra. }
  split.
  - rewrite Hval. unfold box_area. cbn [nth]. reflexivity.
  - rewrite Hval. apply Qlt_shift_div_r; lra.
Qed.

(** C4, as amended: in exact arithmetic, for a row of each argument that
    are non-degenerate corner-form boxes and do not overlap, the entry of
    the matrix [bboxes_iou] returns (with [xyxy=True]; either [inplace]
    setting, two integer tensors with [inplace=True] apart, on which the call
    does not return) is 0, and so is the entry of the matrix [matrix_iou]
    returns. *)
Theorem nonoverlap_iou_zero (h : gmap loc (tensor Q)) (bboxes_a bboxes_b : loc)
    (da db : dtype) (a b : Mat Q) (inplace : bool) (i j : nat)
    (p q : list Q) :
  h !! bboxes_a = Some (T2 da a) -> h !! bboxes_b = Some (T2 db b) ->
  ncols a = 4%nat -> ncols b = 4%nat ->
  inplace = false \/ da = Floating \/ db = Floating ->
  rows a !! i = Some p -> rows b !! j = Some q ->
  proper_box p -> proper_box q -> disjoint_boxes p q ->
  (exists r h' ious v,
      bboxes_iou bboxes_a bboxes_b true inplace h = (Ok r, h')
      /\ h' !! r = Some (T2 Floating ious)
      /\ entry ious i j = Some v /\ v == 0)
  /\ (exists v, entry (matrix_iou a b) i j = Some v /\ v == 0).
Proof.
  intros Ha Hb Hca Hcb Hdt Hp Hq Hpp Hpq Hd. split.
  - destruct (bboxes_iou_returns h bboxes_a bboxes_b da db a b true inplace
                Ha Hb Hca Hcb (integral_in_place_corner _ _ _ Hdt))
      as (r & h' & Hrun & _ & _ & Hr).
    exists r, h', (iou_matrix true a b), (pair_iou true p q).
    split; [done |]. split; [done |].
    split; [by apply iou_matrix_entry | by apply pair_iou_disjoint].
  - exists (pair_matrix_iou p q).
    split; [by apply matrix_iou_entry | by apply pair_matrix_iou_disjoint].
Qed.

Lemma nonoverlap_iou_zero_witness :
  let a := mkMat 4 [[0; 0; 10; 10]] in
  let b := mkMat 4 [[5; 5; 15; 15]; [20; 20; 30; 30]] in
  let h : gmap loc (tensor Q) :=
    {[ 1%positive := T2 Floating a; 2%positive := T2 Floating b ]} in
  (exists r h' ious v,
      bboxes_iou 1%positive 2%positive true true h = (Ok r, h')
      /\ h' !! r = Some (T2 Floating ious)
      /\ entry ious 0 1 = Some v /\ v == 0)
  /\ (exists v, entry (matrix_iou a b) 0 1 = Some v /\ v == 0).
Proof.
  intros a b h.
  apply (nonoverlap_iou_zero h 1%positive 2%positive Floating Floating a b
           true 0%nat 1%nat [0; 0; 10; 10] [20; 20; 30; 30]);
    try reflexivity.
  - right. left. reflexivity.
  - exists 0, 0, 10, 10. split; [reflexivity | split; reflexivity].
  - exists 20, 20, 30, 30. split; [reflexivity | split; reflexivity].
  - left. simpl. discriminate.
Defined.

(** C4, as stated, fails in binary64.  The boxes (0, 0, 1e-200, 1e-200) and
    (2e-200, 2e-200, 3e-200, 3e-200) have positive sides and do not overlap;
    both areas underflow to 0 and [bboxes_iou] returns 0/0, which is NaN.
    The boxes (0, -1e308, 1, 1e308) and (2, -1e308, 3, 1e308) do not
    overlap either; their height overflows and [matrix_iou] multiplies an
    infinite product by the zero of its mask, which is NaN again. *)
Lemma nonoverlap_iou_nan_in_binary64 :
  (let h : gmap loc (tensor float) :=
     {[ 1%positive := T2 Floating (mkMat 4 [[0; 0; 1e-200; 1e-200]%float]);
        2%positive
        := T2 Floating
             (mkMat 4 [[2e-200; 2e-200; 3e-200; 3e-200]%float]) ]} in
   forall inplace,
     exists r h' ious v,
       bboxes_iou 1%positive 2%positive true inplace h = (Ok r, h')
       /\ h' !! r = Some (T2 Floating ious)
       /\ entry ious 0 0 = Some v
       /\ PrimFloat.is_nan v = true /\ PrimFloat.eqb v 0 = false)
  /\ exists v,
       entry (matrix_iou (mkMat 4 [[0; -1e308; 1; 1e308]%float])
                (mkMat 4 [[2; -1e308; 3; 1e308]%float])) 0 0 = Some v
       /\ PrimFloat.is_nan v = true /\ PrimFloat.eqb v 0 = false.
Proof.
  split.
  - intros h [|]; eexists _, _, _, _;
      (split; [vm_compute; reflexivity |]);
      (split; [vm_compute; reflexivity |]);
      (split; [vm_compute; reflexivity |]);
      split; vm_compute; reflexivity.
  - eexists. split; [vm_compute; reflexivity |].
    split; vm_compute; reflexivity.
Qed.

(** C5, as amended: in exact arithmetic, for a non-degenerate corner-form
    box that is a row of both arguments, the entry of the matrix
    [bboxes_iou] returns (with [xyxy=True]; either [inplace] setting, two
    integer tensors with [inplace=True] apart) is 1; the entry of the matrix
    [matrix_iou] returns is area / (area + 1e-12), which is below 1. *)
Theorem self_iou (h : gmap loc (tensor Q)) (bboxes_a bboxes_b : loc)
    (da db : dtype) (a b : Mat Q) (inplace : bool) (i j : nat) (p : list Q) :
  h !! bboxes_a = Some (T2 da a) -> h !! bboxes_b = Some (T2 db b) ->
  ncols a = 4%nat -> ncols b = 4%nat ->
  inplace = false \/ da = Floating \/ db = Floating ->
  rows a !! i = Some p -> rows b !! j = Some p ->
  proper_box p ->
  (exists r h' ious v,
      bboxes_iou bboxes_a bboxes_b true inplace h = (Ok r, h')
      /\ h' !! r = Some (T2 Floating ious)
      /\ entry ious i j = Some v /\ v == 1)
  /\ (exists v,
        entry (matrix_iou a b) i j = Some v
        /\ v == box_area p / (box_area p + eps)
        /\ v < 1).
Proof.
  intros Ha Hb Hca Hcb Hdt Hp Hq Hpp. split.
  - destruct (bboxes_iou_returns h bboxes_a bboxes_b da db a b true inplace
                Ha Hb Hca Hcb (integral_in_place_corner _ _ _ Hdt))
      as (r & h' & Hrun & _ & _ & Hr).
    exists r, h', (iou_matrix true a b), (pair_iou true p p).
    split; [done |]. split; [done |].
    split; [by apply iou_matrix_entry | by apply pair_iou_self].
  - exists (pair_matrix_iou p p).
    split; [by apply matrix_iou_entry | by apply pair_matrix_iou_self].
Qed.

Lemma self_iou_witness :
  let a := mkMat 4 [[0; 0; 1; 1]] in
  let h : gmap loc (tensor Q) := {[ 1%positive := T2 Integral a ]} in
  (exists r h' ious v,
      bboxes_iou 1%positive 1%positive true false h = (Ok r, h')
      /\ h' !! r = Some (T2 Floating ious)
      /\ entry ious 0 0 = Some v /\ v == 1)
  /\ (exists v,
        entry (matrix_iou a a) 0 0 = Some v
        /\ v == box_area [0; 0; 1; 1] / (box_area [0; 0; 1; 1] + eps)
        /\ v < 1).
Proof.
  intros a h.
  apply (self_iou h 1%positive 1%positive Integral Integral a a false
           0%nat 0%nat [0; 0; 1; 1]);
    try reflexivity.
  - left. reflexivity.
  - exists 0, 0, 1, 1. split; [reflexivity | split; reflexivity].
Defined.

(** C5, as stated, fails for [matrix_iou]: for the unit box (0, 0, 1, 1)
    against itself it returns 1 / (1 + 1e-12), over the rationals and in
    binary64 alike. *)
Lemma matrix_iou_self_not_one :
  ~ (exists v : Q,
        entry (matrix_iou (mkMat 4 [[0; 0; 1; 1]]) (mkMat 4 [[0; 0; 1; 1]]))
          0 0 = Some v
        /\ v == 1)
  /\ ~ (exists v : float,
          entry (matrix_iou (mkMat 4 [[0; 0; 1; 1]%float])
                   (mkMat 4 [[0; 0; 1; 1]%float])) 0 0 = Some v
          /\ PrimFloat.eqb v 1 = true).
Proof.
  split.
  - intros (v & Hv & H1). vm_compute in Hv. injection Hv as <-.
    discriminate H1.
  - intros (v & Hv & H1). vm_compute in Hv. injection Hv as <-.
    vm_compute in H1. discriminate H1.
Qed.

(** ** Sample evaluations *)

(** The example of section 8: A = (0, 0, 10, 10) and B = (5, 5, 15, 15) have
    intersection 25 and union 175. *)
Example iou_of_the_specification :
  let h : gmap loc (tensor Q) :=
    {[ 1%positive := T2 Floating (mkMat 4 [[0; 0; 10; 10]]);
       2%positive := T2 Floating (mkMat 4 [[5; 5; 15; 15]]) ]} in
  forall inplace,
    exists r h',
      bboxes_iou 1%positive 2%positive true inplace h = (Ok r, h')
      /\ h' !! r = Some (T2 Floating (mkMat 1 [[25 # 175]])).
Proof.
  intros h [|]; eexists _, _; (split; [vm_compute; reflexivity |]);
    vm_compute; reflexivity.
Qed.

(** In binary64 the same call gives the double nearest to 1/7 for that pair,
    exactly 1 for a box against itself and exactly 0 for two boxes that do
    not overlap. *)
Example iou_in_binary64 :
  let h : gmap loc (tensor float) :=
    {[ 1%positive := T2 Floating (mkMat 4 [[0; 0; 10; 10]%float]);
       2%positive := T2 Floating (mkMat 4 [[5; 5; 15; 15]%float;
                                           [0; 0; 10; 10]%float;
                                           [20; 20; 30; 30]%float]) ]} in
  forall inplace,
    exists r h',
      bboxes_iou 1%positive 2%positive true inplace h = (Ok r, h')
      /\ h' !! r
         = Some (T2 Floating
                   (mkMat 3 [[0x1.2492492492492p-3; 1; 0]%float])).
Proof.
  intros h [|]; eexists _, _; split; vm_compute; reflexivity.
Qed.

(** In binary64 [matrix_iou] of the box (0, 0, 128, 128) with itself is
    exactly 1: the area, 16384, absorbs the 1e-12 added to the union. *)
Example matrix_iou_self_rounds_in_binary64 :
  entry (matrix_iou (mkMat 4 [[0; 0; 128; 128]%float])
           (mkMat 4 [[0; 0; 128; 128]%float])) 0 0
  = Some 1%float.
Proof. vm_compute. reflexivity. Qed.

(** A NaN among the class scores is the row's maximum, at its own
    position. *)
Example class_score_nan_in_binary64 :
  row_max [0.2; nan; 0.9]%float = Some (nan, 1%nat)
  /\ row_max [0.2; 0.9; 0.9; 0.1]%float = Some (0.9%float, 1%nat).
Proof. split; vm_compute; reflexivity. Qed.

(** [adjust_lmks_anns] in binary64: of the two landmarks of the row, the
    first was absent and stays (-1, -1); the second, at (3, 60), moves to
    (7, 121), beyond [h_max = 100], and becomes (-1, -1) too. *)
Example landmarks_in_binary64 :
  adjust_lmks_anns (mkMat 4 [[-1; -1; 3; 60]%float])
    2%float 1%float 1%float 100%float 100%float
  = Ok (mkMat 4 [[-1; -1; 7; 121]%float], mkMat 4 [[-1; -1; -1; -1]%float]).
Proof. vm_compute. reflexivity. Qed.

(** A single image with a single candidate row: below the threshold the
    entry stays [None]; at or above it the call raises IndexError. *)
Example postprocess_single_row :
  postprocess (mkBatch 7 [[[5; 5; 10; 10; 1; 0.6; 0.1]]]) 2 0.7 0.45
    false false false
  = Ok (mkBatch 7 [[[0 # 2; 0 # 2; 20 # 2; 20 # 2; 1; 0.6; 0.1]]], [None])
  /\ postprocess (mkBatch 7 [[[5; 5; 10; 10; 1; 0.7; 0.1]]]) 2 0.7 0.45
       false false false
     = Raise IndexError
  /\ postprocess (mkBatch 7 [[[5; 5; 10; 10; 1; 0.7; 0.1]%float]])
       2 0.7%float 0.45%float false false false
     = Raise IndexError.
Proof. repeat split; vm_compute; reflexivity. Qed.

(** * Further properties of the module *)

(** ** filter_box in any arithmetic *)

Section FilterBox.
Context {F : Type} `{Scalar F}.

Lemma filter_box_rows (output : Mat F) (min_scale max_scale : F) :
  (4 <= ncols output)%nat ->
  filter_box output (min_scale, max_scale)
  = Ok (mkMat (ncols output)
          (List.filter (keeps_box min_scale max_scale) (rows output))).
Proof.
  intros Hc. unfold filter_box, column.
  repeat match goal with
  | |- context [(?j <? ncols output)%nat] =>
      replace (j <? ncols output)%nat with true
        by (symmetry; apply Nat.ltb_lt; lia)
  end.
  cbn [rbind]. do 2 f_equal.
  rewrite !zip_with_map_same, !map_map.
  apply (mask_select_map (keeps_box min_scale max_scale)).
Qed.

Lemma filter_box_narrow (output : Mat F) (scale_range : F * F) :
  (ncols output < 4)%nat -> filter_box output scale_range = Raise IndexError.
Proof.
  intros Hc. destruct scale_range as [mn mx]. unfold filter_box, column.
  destruct (2 <? ncols output)%nat eqn:E2; [| done].
  destruct (0 <? ncols output)%nat eqn:E0; [| done].
  destruct (3 <? ncols output)%nat eqn:E3; [| done].
  apply Nat.ltb_lt in E3. lia.
Qed.

Lemma filter_filter_same {A} (P : A -> bool) (l : list A) :
  List.filter P (List.filter P l) = List.filter P l.
Proof.
  induction l as [|x l IH]; simpl; [done |].
  destruct (P x) eqn:E; simpl; [rewrite E |]; by rewrite IH.
Qed.

End FilterBox.

(** X1: [filter_box] raises IndexError exactly on an array with fewer than
    four columns, whether or not the array has any row, and whatever the
    scale range and the element arithmetic are. *)
Theorem filter_box_index_error {F : Type} `{Scalar F} (output : Mat F)
    (scale_range : F * F) :
  filter_box output scale_range = Raise IndexError
  <-> (ncols output < 4)%nat.
Proof.
  split.
  - intros Hraise. destruct (decide (ncols output < 4)%nat); [done |].
    destruct scale_range as [mn mx].
    rewrite filter_box_rows in Hraise by lia. done.
  - apply filter_box_narrow.
Qed.

(** X2: filtering is idempotent and keeps the width: the array [filter_box]
    returns has the column count of its argument, and filtering it again
    with the same range gives it back unchanged.  Holds in any arithmetic,
    binary64 included. *)
Theorem filter_box_idempotent {F : Type} `{Scalar F} (output kept : Mat F)
    (scale_range : F * F) :
  filter_box output scale_range = Ok kept ->
  ncols kept = ncols output
  /\ (nrows kept <= nrows output)%nat
  /\ filter_box kept scale_range = Ok kept.
Proof.
  destruct scale_range as [mn mx]. intros Hrun.
  destruct (decide (ncols output < 4)%nat) as [Hc | Hc].
  { by rewrite filter_box_narrow in Hrun. }
  rewrite filter_box_rows in Hrun by lia. injection Hrun as <-.
  cbn [ncols]. split; [done |]. split.
  - unfold nrows. cbn [rows]. apply List.filter_length_le.
  - rewrite filter_box_rows by (cbn [ncols]; lia).
    cbn [ncols rows]. by rewrite filter_filter_same.
Qed.

Lemma filter_box_idempotent_witness :
  filter_box (mkMat 5 [[0; 0; 2; 2; 7]; [0; 0; 3; 3; 1]; [0; 0; 4; 4; 1]])
    (2, 4) = Ok (mkMat 5 [[0; 0; 3; 3; 1]])
  /\ filter_box (mkMat 5 [[0; 0; 3; 3; 1]]) (2, 4)
     = Ok (mkMat 5 [[0; 0; 3; 3; 1]]).
Proof.
  assert (Hrun :
    filter_box (mkMat 5 [[0; 0; 2; 2; 7]; [0; 0; 3; 3; 1]; [0; 0; 4; 4; 1]])
      (2, 4) = Ok (mkMat 5 [[0; 0; 3; 3; 1]])) by reflexivity.
  split; [exact Hrun |].
  apply (filter_box_idempotent _ _ _ Hrun).
Defined.

(** ** The conversions and the columns they leave alone *)

Section ConversionFrame.
Context {F : Type} `{Scalar F}.

Lemma xyxy2xywh_narrow (bboxes : Mat F) :
  (ncols bboxes < 4)%nat -> xyxy2xywh bboxes = Raise IndexError.
Proof.
  intros Hc. destruct bboxes as [n l]. cbn [ncols] in Hc.
  destruct n as [|[|[|[|n]]]]; try lia; reflexivity.
Qed.

Lemma xyxy2cxcywh_narrow (bboxes : Mat F) :
  (ncols bboxes < 4)%nat -> xyxy2cxcywh bboxes = Raise IndexError.
Proof.
  intros Hc. destruct bboxes as [n l]. cbn [ncols] in Hc.
  destruct n as [|[|[|[|n]]]]; try lia; reflexivity.
Qed.

Lemma xywh_row_frame (r : list F) :
  length (xywh_row r) = length r
  /\ forall i, i <> 2%nat -> i <> 3%nat -> xywh_row r !! i = r !! i.
Proof.
  unfold xywh_row. split.
  - by rewrite !length_insert.
  - intros i H2 H3. by rewrite !list_lookup_insert_ne.
Qed.

Lemma cxcywh_row_frame (r : list F) :
  length (cxcywh_row r) = length r
  /\ forall i, (4 <= i)%nat -> cxcywh_row r !! i = r !! i.
Proof.
  unfold cxcywh_row. split.
  - rewrite !length_insert. apply xywh_row_frame.
  - intros i Hi. rewrite !list_lookup_insert_ne by lia.
    apply xywh_row_frame; lia.
Qed.

Lemma Forall2_map_l {A B} (P : B -> A -> Prop) (f : A -> B) (l : list A) :
  (forall x, P (f x) x) -> Forall2 P (map f l) l.
Proof. intros HP. induction l; simpl; by constructor. Qed.

End ConversionFrame.

(** X3: both conversions raise IndexError exactly on an array with fewer
    than four columns.  Otherwise they keep the shape of the array;
    [xyxy2xywh] changes nothing but columns 2 and 3, and [xyxy2cxcywh]
    leaves every column from the fifth on (labels, scores) as it was.
    Holds in any arithmetic. *)
Theorem conversions_frame {F : Type} `{Scalar F} (bboxes : Mat F) :
  (xyxy2xywh bboxes = Raise IndexError <-> (ncols bboxes < 4)%nat)
  /\ (xyxy2cxcywh bboxes = Raise IndexError <-> (ncols bboxes < 4)%nat)
  /\ (forall b, xyxy2xywh bboxes = Ok b ->
        ncols b = ncols bboxes
        /\ Forall2
             (fun r' r =>
                length r' = length r
                /\ forall i, i <> 2%nat -> i <> 3%nat -> r' !! i = r !! i)
             (rows b) (rows bboxes))
  /\ (forall b, xyxy2cxcywh bboxes = Ok b ->
        ncols b = ncols bboxes
        /\ Forall2
             (fun r' r =>
                length r' = length r
                /\ forall i, (4 <= i)%nat -> r' !! i = r !! i)
             (rows b) (rows bboxes)).
Proof.
  destruct (decide (ncols bboxes < 4)%nat) as [Hc | Hc].
  - rewrite xyxy2xywh_narrow, xyxy2cxcywh_narrow by done.
    repeat split; done.
  - rewrite xyxy2xywh_rows, xyxy2cxcywh_rows by lia.
    split; [split; [done | lia] |]. split; [split; [done | lia] |].
    split; intros b [= <-]; cbn [ncols rows]; (split; [done |]).
    + apply Forall2_map_l, xywh_row_frame.
    + apply Forall2_map_l, cxcywh_row_frame.
Qed.

(** ** adjust_box_anns *)

Section BoxAnns.
Context {F : Type} `{Scalar F}.
Variables scale_ratio padw padh w_max h_max : F.

(** What happens to the entry at position [i] of a row. *)
Lemma adjust_box_anns_lookup (bbox : Mat F) (j i : nat) :
  entry (adjust_box_anns bbox scale_ratio padw padh w_max h_max) j i
  = match rows bbox !! j with
    | Some r =>
        (fun x =>
           if Nat.even i
           then clip (x * scale_ratio + padw)%S zero w_max
           else clip (x * scale_ratio + padh)%S zero h_max) <$> r !! i
    | None => None
    end.
Proof.
  unfold entry, adjust_box_anns. cbn [rows].
  rewrite !list_lookup_map.
  destruct (rows bbox !! j) as [r |]; [| done].
  cbn [fmap option_fmap option_map].
  rewrite !stride2_lookup.
  destruct (r !! i) as [x |]; [| done].
  by destruct (Nat.even i).
Qed.

Lemma adjust_box_anns_shape (bbox : Mat F) :
  ncols (adjust_box_anns bbox scale_ratio padw padh w_max h_max) = ncols bbox
  /\ Forall2 (fun r' r => length r' = length r)
       (rows (adjust_box_anns bbox scale_ratio padw padh w_max h_max))
       (rows bbox).
Proof.
  unfold adjust_box_anns. cbn [ncols rows]. split; [done |].
  rewrite map_map. apply Forall2_map_l. intros r.
  by rewrite !stride2_length.
Qed.

End BoxAnns.

Lemma clip_bounds (v hi : Q) :
  0 <= hi -> 0 <= clip v 0 hi /\ clip v 0 hi <= hi.
Proof.
  intros Hhi. unfold clip. cbn [maximum minimum Q_scalar]. split.
  - apply Q.min_glb; [apply Q.le_max_r | done].
  - apply Q.le_min_r.
Qed.

Lemma clip_inside (v hi : Q) : 0 <= v -> v <= hi -> clip v 0 hi == v.
Proof.
  intros H0 Hhi. unfold clip. cbn [maximum minimum Q_scalar].
  rewrite (Q.max_l v 0) by done. by apply Q.min_l.
Qed.

Lemma clip_monotone (v v' hi : Q) : v <= v' -> clip v 0 hi <= clip v' 0 hi.
Proof.
  intros Hv. unfold clip. cbn [maximum minimum Q_scalar].
  apply Q.min_le_compat_r. by apply Q.max_le_compat_r.
Qed.

(** X5: [adjust_box_anns] keeps the shape of the array and, for bounds that
    are not negative, puts every coordinate inside the image: each entry at
    an even position ends in [0, w_max] and each entry at an odd position
    in [0, h_max] (over exact rationals). *)
Theorem adjust_box_anns_in_frame (bbox : Mat Q)
    (scale_ratio padw padh w_max h_max : Q) :
  0 <= w_max -> 0 <= h_max ->
  let out := adjust_box_anns bbox scale_ratio padw padh w_max h_max in
  ncols out = ncols bbox
  /\ Forall2 (fun r' r => length r' = length r) (rows out) (rows bbox)
  /\ forall j i v,
       entry out j i = Some v ->
       0 <= v /\ v <= (if Nat.even i then w_max else h_max).
Proof.
  intros Hw Hh out.
  destruct (adjust_box_anns_shape scale_ratio padw padh w_max h_max bbox)
    as [Hc Hr].
  split; [exact Hc |]. split; [exact Hr |].
  intros j i v. unfold out. rewrite adjust_box_anns_lookup.
  destruct (rows bbox !! j) as [r |]; [| done].
  destruct (r !! i) as [x |]; [| done].
  cbn [fmap option_fmap option_map]. intros [= <-].
  destruct (Nat.even i); by apply clip_bounds.
Qed.

Lemma adjust_box_anns_in_frame_witness :
  0 <= 100 /\ 0 <= 50
  /\ forall j i v,
       entry (adjust_box_anns (mkMat 4 [[-3; 2; 60; 40]]) 2 1 1 100 50) j i
       = Some v ->
       0 <= v /\ v <= (if Nat.even i then 100 else 50).
Proof.
  split; [discriminate |]. split; [discriminate |].
  apply (adjust_box_anns_in_frame (mkMat 4 [[-3; 2; 60; 40]]) 2 1 1 100 50);
    discriminate.
Defined.

(** X6: a coordinate whose scaled and shifted value already lies inside the
    image is not clipped: the entry of the result is that value (over exact
    rationals). *)
Theorem adjust_box_anns_inside (bbox : Mat Q)
    (scale_ratio padw padh w_max h_max : Q) (j i : nat) (r : list Q) (x : Q) :
  rows bbox !! j = Some r -> r !! i = Some x ->
  let pad := if Nat.even i then padw else padh in
  let bound := if Nat.even i then w_max else h_max in
  0 <= x * scale_ratio + pad -> x * scale_ratio + pad <= bound ->
  exists v,
    entry (adjust_box_anns bbox scale_ratio padw padh w_max h_max) j i = Some v
    /\ v == x * scale_ratio + pad.
Proof.
  intros Hr Hx pad bound H0 Hb.
  rewrite adjust_box_anns_lookup, Hr, Hx.
  cbn [fmap option_fmap option_map]. eexists. split; [reflexivity |].
  unfold pad, bound in *. destruct (Nat.even i); by apply clip_inside.
Qed.

Lemma adjust_box_anns_inside_witness :
  exists v,
    entry (adjust_box_anns (mkMat 4 [[-3; 2; 60; 40]]) 2 1 1 200 100) 0 2
    = Some v
    /\ v == 121.
Proof.
  destruct (adjust_box_anns_inside (mkMat 4 [[-3; 2; 60; 40]]) 2 1 1 200 100
              0%nat 2%nat [-3; 2; 60; 40] 60 eq_refl eq_refl)
    as (v & Hv & Heq); [discriminate | discriminate |].
  exists v. split; [exact Hv |]. rewrite Heq. reflexivity.
Defined.

(** X7: with a scale that is not negative the order of coordinates
    survives: two entries at positions of the same parity (two x, or two y)
    that were ordered are still ordered in the result, so a corner-form box
    keeps [x1 <= x2] and [y1 <= y2] (over exact rationals). *)
Theorem adjust_box_anns_keeps_order (bbox : Mat Q)
    (scale_ratio padw padh w_max h_max : Q) (j i i' : nat) (r : list Q)
    (x x' : Q) :
  0 <= scale_ratio ->
  rows bbox !! j = Some r -> r !! i = Some x -> r !! i' = Some x' ->
  Nat.even i = Nat.even i' -> x <= x' ->
  exists v v',
    entry (adjust_box_anns bbox scale_ratio padw padh w_max h_max) j i = Some v
    /\ entry (adjust_box_anns bbox scale_ratio padw padh w_max h_max) j i'
       = Some v'
    /\ v <= v'.
Proof.
  intros Hs Hr Hx Hx' Hpar Hle.
  rewrite !adjust_box_anns_lookup, Hr, Hx, Hx', <- Hpar.
  cbn [fmap option_fmap option_map]. eexists _, _.
  split; [reflexivity |]. split; [reflexivity |].
  assert (Hm : x * scale_ratio <= x' * scale_ratio)
    by (by apply Qmult_le_compat_r).
  destruct (Nat.even i); apply clip_monotone;
    cbn [add mul Q_scalar]; lra.
Qed.

Lemma adjust_box_anns_keeps_order_witness :
  exists v v',
    entry (adjust_box_anns (mkMat 4 [[-3; 2; 60; 40]]) 2 1 1 100 50) 0 0
    = Some v
    /\ entry (adjust_box_anns (mkMat 4 [[-3; 2; 60; 40]]) 2 1 1 100 50) 0 2
       = Some v'
    /\ v <= v'.
Proof.
  apply (adjust_box_anns_keeps_order (mkMat 4 [[-3; 2; 60; 40]]) 2 1 1 100 50
           0%nat 0%nat 2%nat [-3; 2; 60; 40] (-3) 60);
    try reflexivity; discriminate.
Defined.

(** ** adjust_lmks_anns: what comes out, and what happens to the argument *)

Section LandmarkFrame.
Context {F : Type} `{Scalar F}.
Variables scale_ratio padw padh w_max h_max : F.

Lemma check_point_keep (row : list F) (k : nat) :
  rejected w_max h_max (nth (2 * k) row zero) (nth (2 * k + 1) row zero)
  = false ->
  check_point w_max h_max row k = row.
Proof. intros Hrej. unfold check_point. unfold rejected in Hrej. by rewrite Hrej. Qed.

Lemma check_fold_keep (ks : list nat) (row : list F) (k : nat) :
  rejected w_max h_max (nth (2 * k) row zero) (nth (2 * k + 1) row zero)
  = false ->
  fold_left (check_point w_max h_max) ks row !! (2 * k)%nat
  = row !! (2 * k)%nat
  /\ fold_left (check_point w_max h_max) ks row !! (2 * k + 1)%nat
     = row !! (2 * k + 1)%nat.
Proof.
  revert row. induction ks as [|k' ks IH]; intros row Hrej;
    cbn [fold_left]; [done |].
  destruct (decide (k' = k)) as [-> | Hne].
  - rewrite (check_point_keep row k Hrej). by apply IH.
  - assert (Hsame :
      check_point w_max h_max row k' !! (2 * k)%nat = row !! (2 * k)%nat
      /\ check_point w_max h_max row k' !! (2 * k + 1)%nat
         = row !! (2 * k + 1)%nat).
    { split; apply check_point_other; lia. }
    destruct Hsame as [H0 H1].
    destruct (IH (check_point w_max h_max row k')) as [IH0 IH1].
    { by rewrite !nth_lookup, H0, H1, <- !nth_lookup. }
    by rewrite IH0, IH1.
Qed.

(** A point of a row after the scan: replaced by (-1, -1) if the test of
    line 174 rejects it, left alone otherwise. *)
Lemma check_row_cases (row : list F) (k : nat) :
  (2 * k + 1 < length row)%nat ->
  (rejected w_max h_max (nth (2 * k) row zero) (nth (2 * k + 1) row zero)
   = true
   /\ check_row w_max h_max row !! (2 * k)%nat = Some neg_one
   /\ check_row w_max h_max row !! (2 * k + 1)%nat = Some neg_one)
  \/ (rejected w_max h_max (nth (2 * k) row zero) (nth (2 * k + 1) row zero)
      = false
      /\ check_row w_max h_max row !! (2 * k)%nat = row !! (2 * k)%nat
      /\ check_row w_max h_max row !! (2 * k + 1)%nat
         = row !! (2 * k + 1)%nat).
Proof.
  intros Hlen.
  destruct (rejected w_max h_max (nth (2 * k) row zero)
              (nth (2 * k + 1) row zero)) eqn:Hrej.
  - left. split; [done |]. by apply check_row_hit.
  - right. split; [done |]. by apply check_fold_keep.
Qed.

Lemma check_row_length (row : list F) :
  length (check_row w_max h_max row) = length row.
Proof. apply check_fold_length. Qed.

Lemma adjust_lmks_anns_unfold (landmarks : Mat F) :
  adjust_lmks_anns landmarks scale_ratio padw padh w_max h_max
  = rbind
      (check_rows w_max h_max
         (map (lmk_row scale_ratio padw padh) (rows landmarks)))
      (fun l4 =>
         Ok (mkMat (ncols landmarks)
               (map (fun r =>
                       stride2 id (fun y => y * scale_ratio + padh)%S
                         (stride2 (fun x => x * scale_ratio + padw)%S id r))
                  (rows landmarks)),
             mkMat (ncols landmarks) l4)).
Proof.
  unfold adjust_lmks_anns. rewrite map_map.
  rewrite (zip_with_map_same
             (zip_with (fun v (m : bool) => v * of_bool m + of_bool m - one)%S)
             (fun r => stride2 id (fun y => y * scale_ratio + padh)%S
                         (stride2 (fun x => x * scale_ratio + padw)%S id r))
             (map (fun v => gt v zero)) (rows landmarks)).
  reflexivity.
Qed.

End LandmarkFrame.

(** X8: on an array with an odd number of columns [adjust_lmks_anns] raises
    ValueError as soon as there is a row to reshape, and returns normally,
    with nothing in either array, when there is none.  Holds in any
    arithmetic. *)
Theorem adjust_lmks_anns_odd_width {F : Type} `{Scalar F} (landmarks : Mat F)
    (scale_ratio padw padh w_max h_max : F) :
  wf_mat landmarks -> Nat.even (ncols landmarks) = false ->
  adjust_lmks_anns landmarks scale_ratio padw padh w_max h_max
  = match rows landmarks with
    | [] => Ok (mkMat (ncols landmarks) [], mkMat (ncols landmarks) [])
    | _ :: _ => Raise ValueError
    end.
Proof.
  intros Hwf Hodd. rewrite adjust_lmks_anns_unfold.
  unfold wf_mat in Hwf.
  destruct (rows landmarks) as [|r l]; [done |].
  apply Forall_cons_1 in Hwf as [Hr _].
  cbn [map check_rows]. by rewrite lmk_row_length, Hr, Hodd.
Qed.

Lemma adjust_lmks_anns_odd_width_witness :
  adjust_lmks_anns (mkMat 3 [[1; 1; 5]]) 2 1 1 100 100 = Raise ValueError.
Proof.
  apply (adjust_lmks_anns_odd_width (mkMat 3 [[1; 1; 5]]) 2 1 1 100 100).
  - repeat constructor.
  - reflexivity.
Defined.

(** X9: [adjust_lmks_anns] writes into the array it is given: when the call
    returns, every entry of the caller's array (sentinels included) has been
    scaled and shifted, x entries by [padw] and y entries by [padh], without
    any masking; the array returned is a different one of the same shape.
    Holds in any arithmetic. *)
Theorem adjust_lmks_anns_overwrites_argument {F : Type} `{Scalar F}
    (landmarks : Mat F) (scale_ratio padw padh w_max h_max : F) :
  wf_mat landmarks -> Nat.even (ncols landmarks) = true ->
  exists caller out,
    adjust_lmks_anns landmarks scale_ratio padw padh w_max h_max
    = Ok (caller, out)
    /\ ncols caller = ncols landmarks /\ ncols out = ncols landmarks
    /\ Forall2 (fun r' r => length r' = length r) (rows out) (rows landmarks)
    /\ forall j i r x,
         rows landmarks !! j = Some r -> r !! i = Some x ->
         entry caller j i
         = Some (if Nat.even i then (x * scale_ratio + padw)%S
                 else (x * scale_ratio + padh)%S).
Proof.
  intros Hwf Hev. eexists _, _.
  split; [by apply adjust_lmks_anns_rows |].
  cbn [ncols rows]. split; [done |]. split; [done |]. split.
  - apply Forall2_map_l. intros r.
    by rewrite check_row_length, lmk_row_length.
  - intros j i r x Hr Hx. unfold entry. cbn [rows].
    rewrite list_lookup_map, Hr. cbn [fmap option_fmap option_map].
    rewrite !stride2_lookup, Hx. cbn [fmap option_fmap option_map].
    by destruct (Nat.even i).
Qed.

Lemma adjust_lmks_anns_overwrites_argument_witness :
  exists caller out,
    adjust_lmks_anns (mkMat 4 [[-1; -1; 3; 60]]) 2 1 1 100 100
    = Ok (caller, out)
    /\ entry caller 0 0 = Some (-1 * 2 + 1)
    /\ entry caller 0 3 = Some (60 * 2 + 1).
Proof.
  destruct (adjust_lmks_anns_overwrites_argument
              (mkMat 4 [[-1; -1; 3; 60]]) 2 1 1 100 100)
    as (caller & out & Hrun & _ & _ & _ & Hentry).
  - repeat constructor.
  - reflexivity.
  - exists caller, out. split; [exact Hrun |]. split.
    + apply (Hentry 0%nat 0%nat [-1; -1; 3; 60] (-1)); reflexivity.
    + apply (Hentry 0%nat 3%nat [-1; -1; 3; 60] 60); reflexivity.
Defined.

(** X10: every landmark of the array [adjust_lmks_anns] returns is either
    the sentinel (-1, -1) or a point inside the image, with x in
    [0, w_max] and y in [0, h_max] (over exact rationals). *)
Theorem adjust_lmks_anns_sentinel_or_inside (landmarks : Mat Q)
    (scale_ratio padw padh w_max h_max : Q) :
  wf_mat landmarks -> Nat.even (ncols landmarks) = true ->
  exists caller out,
    adjust_lmks_anns landmarks scale_ratio padw padh w_max h_max
    = Ok (caller, out)
    /\ forall j k a b,
         entry out j (2 * k) = Some a -> entry out j (2 * k + 1) = Some b ->
         (a = -1 /\ b = -1)
         \/ (0 <= a /\ a <= w_max /\ 0 <= b /\ b <= h_max).
Proof.
  intros Hwf Hev. eexists _, _.
  split; [by apply adjust_lmks_anns_rows |].
  intros j k a b. unfold entry. cbn [rows].
  rewrite list_lookup_map.
  destruct (rows landmarks !! j) as [r |]; [| done].
  cbn [fmap option_fmap option_map]. intros Ha Hb.
  assert (Hlen : (2 * k + 1 < length (lmk_row scale_ratio padw padh r))%nat).
  { apply lookup_lt_Some in Hb. by rewrite check_row_length in Hb. }
  destruct (check_row_cases w_max h_max _ k Hlen)
    as [(_ & Ha' & Hb') | (Hrej & Ha' & Hb')].
  - left. rewrite Ha' in Ha. rewrite Hb' in Hb.
    injection Ha as <-. injection Hb as <-. done.
  - right. rewrite Ha' in Ha. rewrite Hb' in Hb.
    rewrite (nth_lookup_Some _ _ _ _ Ha), (nth_lookup_Some _ _ _ _ Hb)
      in Hrej.
    assert (Hnot : ~ (a < 0 \/ b < 0 \/ w_max < a \/ h_max < b)).
    { intros Hc. apply rejected_iff in Hc. congruence. }
    repeat split; apply Qnot_lt_le; tauto.
Qed.

Lemma adjust_lmks_anns_sentinel_or_inside_witness :
  wf_mat (mkMat 4 [[1; 1; 3; 60]])
  /\ Nat.even 4 = true
  /\ exists caller out,
       adjust_lmks_anns (mkMat 4 [[1; 1; 3; 60]]) 2 1 1 100 100
       = Ok (caller, out)
       /\ forall j k a b,
            entry out j (2 * k) = Some a -> entry out j (2 * k + 1) = Some b ->
            (a = -1 /\ b = -1)
            \/ (0 <= a /\ a <= 100 /\ 0 <= b /\ b <= 100).
Proof.
  assert (Hwf : wf_mat (mkMat 4 [[1; 1; 3; 60]])) by repeat constructor.
  split; [exact Hwf |]. split; [reflexivity |].
  apply (adjust_lmks_anns_sentinel_or_inside
           (mkMat 4 [[1; 1; 3; 60]]) 2 1 1 100 100 Hwf eq_refl).
Defined.

(** X11: a landmark that is present (x and y positive) comes back, in each
    coordinate, as [(t * 1 + 1) - 1], where [t] is the scaled and shifted
    coordinate, provided that pair passes the bounds test of line 174.  This
    is the value line 169 computes for it; it holds in any arithmetic, and
    in binary64 it differs from [t] where adding and subtracting 1 rounds
    (0.05 * 2 comes back as 0.10000000000000009). *)
Theorem adjust_lmks_anns_keeps_valid {F : Type} `{Scalar F}
    (landmarks : Mat F) (scale_ratio padw padh w_max h_max : F) (j k : nat)
    (r : list F) (x y : F) :
  wf_mat landmarks -> Nat.even (ncols landmarks) = true ->
  rows landmarks !! j = Some r ->
  r !! (2 * k)%nat = Some x -> r !! (2 * k + 1)%nat = Some y ->
  gt x zero = true -> gt y zero = true ->
  let a := ((x * scale_ratio + padw) * one + one - one)%S in
  let b := ((y * scale_ratio + padh) * one + one - one)%S in
  rejected w_max h_max a b = false ->
  exists caller out,
    adjust_lmks_anns landmarks scale_ratio padw padh w_max h_max
    = Ok (caller, out)
    /\ entry out j (2 * k) = Some a /\ entry out j (2 * k + 1) = Some b.
Proof.
  intros Hwf Hev Hr Hx Hy Hpx Hpy a b Hin.
  pose proof (lmk_row_even scale_ratio padw padh r k x Hx) as Hx3.
  pose proof (lmk_row_odd scale_ratio padw padh r k y Hy) as Hy3.
  rewrite Hpx in Hx3. rewrite Hpy in Hy3. cbn [of_bool] in Hx3, Hy3.
  fold a in Hx3. fold b in Hy3.
  assert (Hlen : (2 * k + 1 < length (lmk_row scale_ratio padw padh r))%nat).
  { rewrite lmk_row_length. by apply lookup_lt_Some in Hy. }
  eexists _, _.
  split; [by apply adjust_lmks_anns_rows |].
  unfold entry. cbn [rows]. rewrite list_lookup_map, Hr.
  cbn [fmap option_fmap option_map].
  destruct (check_row_cases w_max h_max _ k Hlen)
    as [(Hrej & _) | (_ & Ha & Hb)].
  - rewrite (nth_lookup_Some _ _ _ _ Hx3), (nth_lookup_Some _ _ _ _ Hy3)
      in Hrej.
    congruence.
  - by rewrite Ha, Hb, Hx3, Hy3.
Qed.

Lemma adjust_lmks_anns_keeps_valid_witness :
  exists caller out,
    adjust_lmks_anns (mkMat 2 [[0.05; 3]%float])
      2%float 0%float 0%float 100%float 100%float
    = Ok (caller, out)
    /\ entry out 0 0 = Some 0x1.99999999999ap-4%float
    /\ entry out 0 1 = Some 6%float.
Proof.
  assert (Hwf : wf_mat (mkMat 2 [[0.05; 3]%float]))
    by (repeat constructor).
  pose proof (adjust_lmks_anns_keeps_valid (mkMat 2 [[0.05; 3]%float])
                2%float 0%float 0%float 100%float 100%float
                0%nat 0%nat [0.05; 3]%float 0.05%float 3%float
                Hwf eq_refl eq_refl eq_refl eq_refl eq_refl eq_refl eq_refl)
    as Hw.
  vm_compute in Hw. vm_compute. exact Hw.
Defined.

(** ** postprocess: shape of the outcome *)

(** X12: [postprocess] raises IndexError on a tensor with fewer than four
    channels; when it returns, the caller's tensor has been converted to
    corner form, the output list has exactly one entry per image, and the
    entry of an image without any candidate row is [None].  An empty batch
    gives an empty output list.  Holds in any arithmetic. *)
Theorem postprocess_outcome {F : Type} `{Scalar F} (prediction : Batch F)
    (num_classes : nat) (conf_thre nms_thre : F)
    (class_agnostic keypoints segs : bool) :
  ((nchan prediction < 4)%nat ->
   postprocess prediction num_classes conf_thre nms_thre class_agnostic
     keypoints segs = Raise IndexError)
  /\ ((4 <= nchan prediction)%nat -> images prediction = [] ->
      postprocess prediction num_classes conf_thre nms_thre class_agnostic
        keypoints segs = Ok (mkBatch (nchan prediction) [], []))
  /\ (forall prediction' output,
        postprocess prediction num_classes conf_thre nms_thre class_agnostic
          keypoints segs = Ok (prediction', output) ->
        (4 <= nchan prediction)%nat
        /\ nchan prediction' = nchan prediction
        /\ images prediction' = map (map to_corner) (images prediction)
        /\ length output = length (images prediction)
        /\ forall i, images prediction !! i = Some [] ->
                     output !! i = Some None).
Proof.
  split; [| split].
  - intros Hc. unfold postprocess.
    by replace (nchan prediction <? 4)%nat with true
      by (symmetry; by apply Nat.ltb_lt).
  - intros Hc Hempty. unfold postprocess.
    replace (nchan prediction <? 4)%nat with false
      by (symmetry; by apply Nat.ltb_ge).
    by rewrite Hempty.
  - intros prediction' output Hrun.
    destruct (postprocess_per_image _ _ _ _ _ _ _ _ _ Hrun) as [Himg HF].
    unfold postprocess in Hrun.
    destruct (nchan prediction <? 4)%nat eqn:Ec; [done |].
    apply Nat.ltb_ge in Ec. split; [done |].
    destruct (each_image _ _) as [out |]; [| done]. cbn [rbind] in Hrun.
    injection Hrun as <- <-. cbn [nchan images] in *.
    split; [done |]. split; [done |]. split.
    + apply Forall2_length in HF. by rewrite <- HF, length_map.
    + intros i Hi.
      assert (Hi' : map (map to_corner) (images prediction) !! i = Some [])
        by (by rewrite list_lookup_map, Hi).
      destruct (Forall2_lookup_l _ _ _ _ _ HF Hi') as (o & Ho & Hrun).
      rewrite Ho. by injection Hrun as <-.
Qed.

(** ** postprocess: what an image's entry can hold *)

Section Survivors.
Context {F : Type} `{Scalar F}.

Lemma insert_desc_In (c x : cand F) (l : list (cand F)) :
  In x (insert_desc c l) -> x = c \/ In x l.
Proof.
  induction l as [|d l IH]; simpl.
  - intros [<- | []]. by left.
  - destruct (gt (c_score d) (c_score c)); simpl.
    + intros [<- | Hx]; [right; by left |].
      destruct (IH Hx) as [-> | ?]; [by left | right; by right].
    + intros [<- | Hx]; [by left | by right].
Qed.

Lemma insert_desc_length (c : cand F) (l : list (cand F)) :
  length (insert_desc c l) = S (length l).
Proof.
  induction l as [|d l IH]; simpl; [done |].
  destruct (gt (c_score d) (c_score c)); simpl; by rewrite ?IH.
Qed.

Lemma sort_desc_In (x : cand F) (l : list (cand F)) :
  In x (sort_desc l) -> In x l.
Proof.
  unfold sort_desc. induction l as [|c l IH]; simpl; [done |].
  intros Hx. apply insert_desc_In in Hx as [-> | Hx]; [by left |].
  right. by apply IH.
Qed.

Lemma sort_desc_length (l : list (cand F)) :
  length (sort_desc l) = length l.
Proof.
  unfold sort_desc. induction l as [|c l IH]; simpl; [done |].
  by rewrite insert_desc_length, IH.
Qed.

Lemma select_In (suppresses : cand F -> cand F -> bool) (n : nat)
    (l : list (cand F)) (i : nat) :
  In i (select n suppresses l) -> exists c, In c l /\ c_idx c = i.
Proof.
  revert l. induction n as [|n IH]; intros l; [done |].
  destruct l as [|c rest]; [done |]. simpl.
  intros [<- | Hi]; [exists c; split; [by left | done] |].
  destruct (IH _ Hi) as (c' & Hc' & <-).
  exists c'. split; [| done]. right.
  by apply List.filter_In in Hc' as [? _].
Qed.

Lemma candidates_idx (boxes : list (list F)) (scores idxs : list F)
    (c : cand F) :
  In c (candidates boxes scores idxs) -> (c_idx c < length boxes)%nat.
Proof.
  intros Hc. apply list_elem_of_In in Hc. unfold candidates in Hc.
  apply elem_of_lookup_imap_1 in Hc as (i & [[b s] k] & -> & Hi).
  cbn [c_idx]. apply lookup_lt_Some in Hi.
  rewrite !length_zip_with in Hi. lia.
Qed.

Lemma candidates_length (boxes : list (list F)) (scores idxs : list F) :
  length scores = length boxes -> length idxs = length boxes ->
  length (candidates boxes scores idxs) = length boxes.
Proof.
  intros Hs Hi. unfold candidates.
  rewrite length_imap, !length_zip_with. lia.
Qed.

(** Suppression returns rows of its argument, and at least one of them when
    there is any. *)
Lemma suppress_subset (nms_thre : F) (class_agnostic : bool)
    (detections : list (list F)) (d : list F) :
  In d (suppress nms_thre class_agnostic detections) -> In d detections.
Proof.
  unfold suppress. intros Hd.
  apply List.in_map_iff in Hd as (i & <- & Hi).
  apply List.nth_In.
  assert (Hidx : exists c,
    In c (candidates (map (take 4) detections)
            (map (fun d => nth 4 d zero * nth 5 d zero)%S detections)
            (if class_agnostic
             then map (fun _ => zero)
                    (map (fun d => nth 4 d zero * nth 5 d zero)%S detections)
             else map (fun d => nth 6 d zero) detections))
    /\ c_idx c = i).
  { destruct class_agnostic; unfold nms, batched_nms in Hi;
      apply select_In in Hi as (c & Hc & <-);
      apply sort_desc_In in Hc; by exists c. }
  destruct Hidx as (c & Hc & <-).
  apply candidates_idx in Hc. by rewrite length_map in Hc.
Qed.

Lemma select_nonempty (suppresses : cand F -> cand F -> bool)
    (l : list (cand F)) :
  l <> [] -> select (length l) suppresses l <> [].
Proof. destruct l; [done |]. simpl. done. Qed.

Lemma suppress_nonempty (nms_thre : F) (class_agnostic : bool)
    (detections : list (list F)) :
  detections <> [] -> suppress nms_thre class_agnostic detections <> [].
Proof.
  intros Hne. unfold suppress.
  assert (Hsel : forall idxs,
    length idxs = length detections ->
    forall suppresses,
      select
        (length
           (sort_desc
              (candidates (map (take 4) detections)
                 (map (fun d => nth 4 d zero * nth 5 d zero)%S detections)
                 idxs)))
        suppresses
        (sort_desc
           (candidates (map (take 4) detections)
              (map (fun d => nth 4 d zero * nth 5 d zero)%S detections)
              idxs))
      <> []).
  { intros idxs Hlen suppresses. apply select_nonempty.
    intros Hnil. apply (f_equal length) in Hnil.
    rewrite sort_desc_length, candidates_length in Hnil
      by (rewrite ?length_map; done).
    rewrite length_map in Hnil. simpl in Hnil.
    destruct detections; [done | simpl in Hnil; lia]. }
  destruct class_agnostic; unfold nms, batched_nms;
    intros Hnil; apply List.map_eq_nil in Hnil; revert Hnil;
    apply Hsel; by rewrite !length_map.
Qed.

Lemma detection_row_head (num_classes : nat) (extras : bool) (r : list F)
    (p : F * nat) :
  (5 <= length r)%nat ->
  nth 4 (detection_row num_classes extras (r, p)) zero = nth 4 r zero
  /\ nth 5 (detection_row num_classes extras (r, p)) zero = p.1
  /\ nth 6 (detection_row num_classes extras (r, p)) zero = of_nat p.2
  /\ take 5 (detection_row num_classes extras (r, p)) = take 5 r.
Proof.
  intros Hl.
  destruct r as [|a [|b [|c [|d [|e rest]]]]]; simpl in Hl; try lia.
  unfold detection_row. cbn. repeat split.
Qed.

Lemma class_best_In (num_classes : nat) (image_pred : list (list F))
    (best : list (F * nat)) (r : list F) (p : F * nat) :
  class_best num_classes image_pred = Ok best ->
  In (r, p) (zip image_pred best) ->
  In r image_pred /\ row_max (take num_classes (drop 5 r)) = Some p.
Proof.
  intros Hbest Hin. apply list_elem_of_In, list_elem_of_lookup in Hin as [i Hi].
  apply lookup_zip_with_Some in Hi as (r' & p' & [= <- <-] & Hr & Hp).
  split; [by apply list_elem_of_In, (list_elem_of_lookup_2 _ i) |].
  by apply (class_best_lookup num_classes image_pred best i).
Qed.

Lemma row_max_some_length (l : list F) (p : F * nat) :
  row_max l = Some p -> l <> [].
Proof. by destruct l. Qed.

End Survivors.

(** X13: an image's entry of the output list is never an empty array: it is
    [None] or holds at least one detection.  Every detection it holds is
    built from a row of that image (same box corners and objectness), and
    its fused confidence, objectness times class confidence, is at least
    [conf_thre] (over exact rationals; suppression as modelled from the
    specification only picks among the rows it is given). *)
Theorem postprocess_survivors (prediction prediction' : Batch Q)
    (num_classes : nat) (conf_thre nms_thre : Q)
    (class_agnostic keypoints segs : bool)
    (output : list (option (list (list Q)))) (i : nat)
    (detections : list (list Q)) :
  postprocess prediction num_classes conf_thre nms_thre class_agnostic
    keypoints segs = Ok (prediction', output) ->
  output !! i = Some (Some detections) ->
  detections <> []
  /\ exists image',
      images prediction' !! i = Some image'
      /\ forall d, In d detections ->
           conf_thre <= det_score d
           /\ exists r, In r image' /\ take 5 d = take 5 r.
Proof.
  intros Hrun Hout.
  destruct (postprocess_per_image _ _ _ _ _ _ _ _ _ Hrun) as [_ HF].
  destruct (Forall2_lookup_r _ _ _ _ _ HF Hout) as (image' & Himg & Hbody).
  unfold postprocess_image in Hbody.
  destruct (length image' =? 0)%nat; [done |].
  destruct (candidates_kept num_classes conf_thre (keypoints || segs) image')
    as [kept |] eqn:Ekept; [| done].
  cbn [rbind] in Hbody.
  destruct (length kept =? 0)%nat eqn:Ek; [done |].
  destruct (length image' =? 1)%nat; [done |].
  injection Hbody as <-.
  assert (Hne : kept <> []) by (intros ->; done).
  split; [by apply suppress_nonempty |].
  exists image'. split; [done |].
  intros d Hd. apply suppress_subset in Hd.
  destruct (class_best num_classes image') as [best |] eqn:Ebest;
    [| unfold candidates_kept in Ekept; by rewrite Ebest in Ekept].
  rewrite (candidates_kept_filter num_classes conf_thre (keypoints || segs)
             image' best Ebest) in Ekept.
  injection Ekept as <-.
  apply List.in_map_iff in Hd as ([r p] & <- & Hc).
  apply List.filter_In in Hc as [Hc Hge].
  destruct (class_best_In _ _ _ _ _ Ebest Hc) as [Hr Hmax].
  assert (Hlen : (5 <= length r)%nat).
  { apply row_max_some_length in Hmax.
    destruct (decide (5 <= length r)%nat) as [? | Hshort]; [done |].
    exfalso. apply Hmax. rewrite drop_ge by lia. by rewrite take_nil. }
  destruct (detection_row_head num_classes (keypoints || segs) r p Hlen)
    as (H4 & H5 & _ & Htake).
  split.
  - unfold det_score. change 0 with (@zero Q _). rewrite H4, H5.
    by apply Qle_bool_iff in Hge.
  - by exists r.
Qed.

Lemma postprocess_survivors_witness :
  postprocess
    (mkBatch 7 [[[5; 5; 10; 10; 1; 0.9; 0.1]; [6; 6; 10; 10; 1; 0.8; 0.3]]])
    2 0.7 0.45 false false false
  = Ok (mkBatch 7 [[[0 # 2; 0 # 2; 20 # 2; 20 # 2; 1; 0.9; 0.1];
                    [2 # 2; 2 # 2; 22 # 2; 22 # 2; 1; 0.8; 0.3]]],
        [Some [[0 # 2; 0 # 2; 20 # 2; 20 # 2; 1; 0.9; 0]]])
  /\ forall d, In d [[0 # 2; 0 # 2; 20 # 2; 20 # 2; 1; 0.9; 0]] ->
       0.7 <= det_score d.
Proof.
  assert (Hrun :
    postprocess
      (mkBatch 7 [[[5; 5; 10; 10; 1; 0.9; 0.1]; [6; 6; 10; 10; 1; 0.8; 0.3]]])
      2 0.7 0.45 false false false
    = Ok (mkBatch 7 [[[0 # 2; 0 # 2; 20 # 2; 20 # 2; 1; 0.9; 0.1];
                      [2 # 2; 2 # 2; 22 # 2; 22 # 2; 1; 0.8; 0.3]]],
          [Some [[0 # 2; 0 # 2; 20 # 2; 20 # 2; 1; 0.9; 0]]]))
    by reflexivity.
  split; [exact Hrun |].
  destruct (postprocess_survivors _ _ _ _ _ _ _ _ _ 0%nat _ Hrun eq_refl)
    as (_ & image' & _ & Hd).
  intros d Hin. by apply Hd.
Defined.

(** ** bboxes_iou: the matrix it returns *)

Section IouShape.
Context {F : Type} `{Scalar F}.

Lemma outer_map {A A' B B' C} (f : A' -> B' -> C) (g : A -> A') (k : B -> B')
    (a : list A) (b : list B) :
  outer f (map g a) (map k b) = outer (fun x y => f (g x) (k y)) a b.
Proof.
  unfold outer. rewrite map_map.
  apply List.map_ext. intros x. apply map_map.
Qed.

Lemma zip2_outer {A B C D E} (f : C -> D -> E) (g : A -> B -> C)
    (k : A -> B -> D) (a : list A) (b : list B) :
  zip_with (zip_with f) (outer g a b) (outer k a b)
  = outer (fun x y => f (g x y) (k x y)) a b.
Proof.
  unfold outer. rewrite zip_with_map_same.
  apply List.map_ext. intros x. apply zip_with_map_same.
Qed.

Lemma map2_outer {A B C D} (f : C -> D) (g : A -> B -> C)
    (a : list A) (b : list B) :
  map (map f) (outer g a b) = outer (fun x y => f (g x y)) a b.
Proof.
  unfold outer. rewrite map_map.
  apply List.map_ext. intros x. apply map_map.
Qed.

Lemma outer_shape {A B C} (f : A -> B -> C) (a : list A) (b : list B) :
  length (outer f a b) = length a
  /\ Forall (fun row => length row = length b) (outer f a b).
Proof.
  unfold outer. split; [apply length_map |].
  apply Forall_forall. intros row Hrow.
  apply list_elem_of_In, List.in_map_iff in Hrow as (x & <- & _).
  apply length_map.
Qed.

(** The matrix of [bboxes_iou] is the table of the pairwise IoU of the rows
    of its arguments. *)
Lemma iou_matrix_outer (xyxy : bool) (a b : Mat F) :
  iou_matrix xyxy a b
  = mkMat (nrows b) (outer (pair_iou xyxy) (rows a) (rows b)).
Proof.
  unfold iou_matrix, centre_tl, centre_br, lo, hi, zip2, zip3. f_equal.
  destruct xyxy.
  - rewrite !zip_with_map_same, !outer_map, zip2_outer.
    rewrite (map2_outer (map (fun e : F => maximum e zero))).
    rewrite (map2_outer (@prod F _)), (zip2_outer (@sub F _)),
      (zip2_outer (@div F _)).
    reflexivity.
  - rewrite !(map_map (drop 2)), !zip_with_map_same, !outer_map, zip2_outer.
    rewrite (map2_outer (map (fun e : F => maximum e zero))).
    rewrite (map2_outer (@prod F _)), (zip2_outer (@sub F _)),
      (zip2_outer (@div F _)).
    reflexivity.
Qed.

End IouShape.

(** X14: on two 2-D arguments with four columns [bboxes_iou] raises
    RuntimeError when both are integer tensors and [xyxy] and [inplace] are
    set, and in every other case returns a floating-point tensor that did
    not exist before the call (so it is neither of the arguments), of shape
    (rows of a) x (rows of b); with an empty argument the result is a valid
    array without entries.  Holds in any arithmetic. *)
Theorem bboxes_iou_result_shape {F : Type} `{Scalar F}
    (h : gmap loc (tensor F)) (bboxes_a bboxes_b : loc) (da db : dtype)
    (a b : Mat F) (xyxy inplace : bool) :
  h !! bboxes_a = Some (T2 da a) -> h !! bboxes_b = Some (T2 db b) ->
  ncols a = 4%nat -> ncols b = 4%nat ->
  if integral_in_place da db xyxy inplace
  then (bboxes_iou bboxes_a bboxes_b xyxy inplace h).1 = Raise RuntimeError
  else
    exists r h' ious,
      bboxes_iou bboxes_a bboxes_b xyxy inplace h = (Ok r, h')
      /\ h' !! r = Some (T2 Floating ious)
      /\ h !! r = None /\ r <> bboxes_a /\ r <> bboxes_b
      /\ ncols ious = nrows b
      /\ nrows ious = nrows a
      /\ wf_mat ious.
Proof.
  intros Ha Hb Hca Hcb.
  destruct (integral_in_place da db xyxy inplace) eqn:Hdt.
  { destruct (bboxes_iou_integral h bboxes_a bboxes_b da db a b xyxy inplace
                Ha Hb Hca Hcb Hdt) as (h' & -> & _).
    done. }
  destruct (bboxes_iou_returns h bboxes_a bboxes_b da db a b xyxy inplace
              Ha Hb Hca Hcb Hdt) as (r & h' & Hrun & _ & Hfresh & Hr).
  exists r, h', (iou_matrix xyxy a b).
  split; [done |]. split; [done |]. split; [done |].
  split; [intros ->; congruence |]. split; [intros ->; congruence |].
  rewrite iou_matrix_outer. unfold nrows, wf_mat. cbn [ncols rows].
  split; [done |].
  destruct (outer_shape (pair_iou xyxy) (rows a) (rows b)) as [Hlen Hrows].
  split; done.
Qed.

Lemma bboxes_iou_result_shape_witness :
  let a := mkMat 4 [] in
  let b := mkMat 4 [[5; 5; 15; 15]; [20; 20; 30; 30]] in
  let h : gmap loc (tensor Q) :=
    {[ 1%positive := T2 Floating a; 2%positive := T2 Integral b ]} in
  let h_int : gmap loc (tensor Q) :=
    {[ 1%positive := T2 Integral a; 2%positive := T2 Integral b ]} in
  (exists r h' ious,
      bboxes_iou 1%positive 2%positive true true h = (Ok r, h')
      /\ h' !! r = Some (T2 Floating ious)
      /\ ncols ious = 2%nat /\ nrows ious = 0%nat)
  /\ (bboxes_iou 1%positive 2%positive true true h_int).1
     = Raise RuntimeError.
Proof.
  intros a b h h_int. split.
  - pose proof (bboxes_iou_result_shape h 1%positive 2%positive
                  Floating Integral a b true true
                  eq_refl eq_refl eq_refl eq_refl) as Hs.
    cbv [integral_in_place promote can_cast andb negb] in Hs.
    destruct Hs as (r & h' & ious & Hrun & Hr & _ & _ & _ & Hc & Hn & _).
    by exists r, h', ious.
  - exact (bboxes_iou_result_shape h_int 1%positive 2%positive
             Integral Integral a b true true
             eq_refl eq_refl eq_refl eq_refl).
Defined.

(** ** IoU values over the rationals *)

(** Width and height of the intersection as [bboxes_iou] clamps them. *)
Lemma clamped_gap_bounds (lo1 lo2 hi1 hi2 : Q) :
  lo1 <= hi1 -> lo2 <= hi2 ->
  0 <= Qmax (Qmin hi1 hi2 - Qmax lo1 lo2) 0
  /\ Qmax (Qmin hi1 hi2 - Qmax lo1 lo2) 0 <= hi1 - lo1
  /\ Qmax (Qmin hi1 hi2 - Qmax lo1 lo2) 0 <= hi2 - lo2.
Proof.
  intros H1 H2.
  pose proof (Q.le_min_l hi1 hi2). pose proof (Q.le_min_r hi1 hi2).
  pose proof (Q.le_max_l lo1 lo2). pose proof (Q.le_max_r lo1 lo2).
  split; [apply Q.le_max_r |]. split; apply Q.max_lub; lra.
Qed.

Lemma product_below (w h a b : Q) :
  0 <= w -> w <= a -> 0 <= h -> h <= b -> 0 <= w * h /\ w * h <= a * b.
Proof.
  intros Hw Hwa Hh Hhb. split; [by apply Qmult_le_0_compat |].
  apply Qle_trans with (a * h).
  - apply Qmult_le_compat_r; done.
  - rewrite !(Qmult_comm a). apply Qmult_le_compat_r; [done | lra].
Qed.

Lemma pair_iou_value (x1 y1 x2 y2 u1 v1 u2 v2 : Q) :
  pair_iou true [x1; y1; x2; y2] [u1; v1; u2; v2]
  == Qmax (Qmin x2 u2 - Qmax x1 u1) 0 * Qmax (Qmin y2 v2 - Qmax y1 v1) 0
     / ((x2 - x1) * (y2 - y1) + (u2 - u1) * (v2 - v1)
        - Qmax (Qmin x2 u2 - Qmax x1 u1) 0
          * Qmax (Qmin y2 v2 - Qmax y1 v1) 0).
Proof.
  unfold pair_iou, prod.
  cbn [take drop zip_with map fold_left
       zero one add sub mul div maximum minimum Q_scalar].
  apply Qdiv_comp; ring.
Qed.

Lemma ratio_in_unit (i a b : Q) :
  0 < a -> 0 < b -> 0 <= i -> i <= a -> i <= b ->
  0 <= i / (a + b - i) /\ i / (a + b - i) <= 1.
Proof.
  intros Ha Hb Hi Hia Hib. split.
  - apply Qle_shift_div_l; lra.
  - apply Qle_shift_div_r; lra.
Qed.

Lemma pair_iou_range (p q : list Q) :
  proper_box p -> proper_box q ->
  0 <= pair_iou true p q /\ pair_iou true p q <= 1.
Proof.
  intros (x1 & y1 & x2 & y2 & -> & Hx & Hy)
         (u1 & v1 & u2 & v2 & -> & Hu & Hv).
  rewrite pair_iou_value.
  destruct (clamped_gap_bounds x1 u1 x2 u2) as (Hw0 & Hwa & Hwb); [lra.. |].
  destruct (clamped_gap_bounds y1 v1 y2 v2) as (Hh0 & Hha & Hhb); [lra.. |].
  destruct (product_below _ _ _ _ Hw0 Hwa Hh0 Hha) as [Hi0 Hia].
  destruct (product_below _ _ _ _ Hw0 Hwb Hh0 Hhb) as [_ Hib].
  apply ratio_in_unit; try done; apply Qmult_lt_0_compat; lra.
Qed.

Lemma pair_iou_symmetric (p q : list Q) :
  length p = 4%nat -> length q = 4%nat ->
  pair_iou true p q == pair_iou true q p.
Proof.
  intros Hp Hq.
  destruct p as [|x1 [|y1 [|x2 [|y2 [|]]]]]; try done.
  destruct q as [|u1 [|v1 [|u2 [|v2 [|]]]]]; try done.
  rewrite !pair_iou_value.
  rewrite (Q.min_comm u2 x2), (Q.max_comm u1 x1),
    (Q.min_comm v2 y2), (Q.max_comm v1 y1).
  apply Qdiv_comp; ring.
Qed.

Lemma pair_iou_centre (p q : list Q) :
  length p = 4%nat -> length q = 4%nat ->
  pair_iou false p q == pair_iou true (to_corner p) (to_corner q).
Proof.
  intros Hp Hq.
  destruct p as [|cx [|cy [|w [|h [|]]]]]; try done.
  destruct q as [|dx [|dy [|w' [|h' [|]]]]]; try done.
  unfold pair_iou, prod, to_corner.
  cbn [take drop zip_with map fold_left nth app
       zero one two add sub mul div maximum minimum Q_scalar].
  apply Qdiv_comp; [reflexivity |].
  apply Qplus_comp; [apply Qplus_comp; [field | field] | reflexivity].
Qed.

(** The intersection area [matrix_iou] gets from its mask is the clamped
    one of [bboxes_iou]. *)
Lemma masked_product (dx dy : Q) :
  1 * dx * dy * of_bool (Qlt_bool 0 dx && (Qlt_bool 0 dy && true))
  == Qmax dx 0 * Qmax dy 0.
Proof.
  destruct (Qlt_le_dec 0 dx) as [Hx | Hx];
    [destruct (Qlt_le_dec 0 dy) as [Hy | Hy] |].
  - replace (Qlt_bool 0 dx) with true by (symmetry; by apply Qlt_bool_iff).
    replace (Qlt_bool 0 dy) with true by (symmetry; by apply Qlt_bool_iff).
    cbn [andb of_bool one Q_scalar].
    rewrite (Q.max_l dx 0), (Q.max_l dy 0) by lra. ring.
  - replace (Qlt_bool 0 dy) with false
      by (symmetry; by apply Qlt_bool_false_iff).
    rewrite andb_false_r. cbn [of_bool zero Q_scalar].
    rewrite (Q.max_r dy 0) by done. ring.
  - replace (Qlt_bool 0 dx) with false
      by (symmetry; by apply Qlt_bool_false_iff).
    cbn [andb of_bool zero Q_scalar].
    rewrite (Q.max_r dx 0) by done. ring.
Qed.

Lemma Qlt_bool_shift (a b : Q) : Qlt_bool a b = Qlt_bool 0 (b - a).
Proof.
  destruct (Qlt_bool 0 (b - a)) eqn:E.
  - apply Qlt_bool_iff in E. apply Qlt_bool_iff. lra.
  - apply Qlt_bool_false_iff in E. apply Qlt_bool_false_iff. lra.
Qed.

Lemma pair_matrix_iou_value (x1 y1 x2 y2 u1 v1 u2 v2 : Q) :
  pair_matrix_iou [x1; y1; x2; y2] [u1; v1; u2; v2]
  == Qmax (Qmin x2 u2 - Qmax x1 u1) 0 * Qmax (Qmin y2 v2 - Qmax y1 v1) 0
     / ((x2 - x1) * (y2 - y1) + (u2 - u1) * (v2 - v1)
        - Qmax (Qmin x2 u2 - Qmax x1 u1) 0
          * Qmax (Qmin y2 v2 - Qmax y1 v1) 0
        + eps).
Proof.
  unfold pair_matrix_iou, prod, all_true.
  cbn [take drop zip_with map fold_left forallb id
       zero one add sub mul div maximum minimum lt Q_scalar].
  rewrite (Qlt_bool_shift (Qmax x1 u1) (Qmin x2 u2)),
    (Qlt_bool_shift (Qmax y1 v1) (Qmin y2 v2)).
  rewrite masked_product.
  apply Qdiv_comp; [reflexivity | ring].
Qed.

(** X15: for two non-degenerate corner-form boxes, overlapping or not, the
    entry [bboxes_iou] computes (with [xyxy=True]; either [inplace]
    setting, two integer tensors with [inplace=True] apart) lies between 0
    and 1 (over exact rationals). *)
Theorem bboxes_iou_in_unit_interval (h : gmap loc (tensor Q))
    (bboxes_a bboxes_b : loc) (da db : dtype) (a b : Mat Q) (inplace : bool)
    (i j : nat) (p q : list Q) :
  h !! bboxes_a = Some (T2 da a) -> h !! bboxes_b = Some (T2 db b) ->
  ncols a = 4%nat -> ncols b = 4%nat ->
  inplace = false \/ da = Floating \/ db = Floating ->
  rows a !! i = Some p -> rows b !! j = Some q ->
  proper_box p -> proper_box q ->
  exists r h' ious v,
    bboxes_iou bboxes_a bboxes_b true inplace h = (Ok r, h')
    /\ h' !! r = Some (T2 Floating ious)
    /\ entry ious i j = Some v /\ 0 <= v /\ v <= 1.
Proof.
  intros Ha Hb Hca Hcb Hdt Hp Hq Hpp Hpq.
  destruct (bboxes_iou_returns h bboxes_a bboxes_b da db a b true inplace
              Ha Hb Hca Hcb (integral_in_place_corner _ _ _ Hdt))
    as (r & h' & Hrun & _ & _ & Hr).
  exists r, h', (iou_matrix true a b), (pair_iou true p q).
  split; [done |]. split; [done |].
  split; [by apply iou_matrix_entry | by apply pair_iou_range].
Qed.

Lemma bboxes_iou_in_unit_interval_witness :
  let a := mkMat 4 [[0; 0; 10; 10]] in
  let b := mkMat 4 [[5; 5; 15; 15]; [20; 20; 30; 30]] in
  let h : gmap loc (tensor Q) :=
    {[ 1%positive := T2 Floating a; 2%positive := T2 Floating b ]} in
  exists r h' ious v,
    bboxes_iou 1%positive 2%positive true true h = (Ok r, h')
    /\ h' !! r = Some (T2 Floating ious)
    /\ entry ious 0 0 = Some v /\ 0 <= v /\ v <= 1.
Proof.
  intros a b h.
  apply (bboxes_iou_in_unit_interval h 1%positive 2%positive
           Floating Floating a b true
           0%nat 0%nat [0; 0; 10; 10] [5; 5; 15; 15]);
    try reflexivity.
  - right. left. reflexivity.
  - exists 0, 0, 10, 10. split; [reflexivity | split; reflexivity].
  - exists 5, 5, 15, 15. split; [reflexivity | split; reflexivity].
Defined.

(** X16: swapping the two arguments transposes the matrix: entry (i, j) of
    [bboxes_iou(a, b)] equals entry (j, i) of [bboxes_iou(b, a)], in
    corner form and in centre form, whenever the call returns (it does
    unless both are integer tensors and [xyxy] and [inplace] are set), and
    the same holds for [matrix_iou] (over exact rationals, on rows of four
    entries). *)
Theorem iou_transposed (h : gmap loc (tensor Q)) (bboxes_a bboxes_b : loc)
    (da db : dtype) (a b : Mat Q) (xyxy inplace : bool) (i j : nat)
    (p q : list Q) :
  h !! bboxes_a = Some (T2 da a) -> h !! bboxes_b = Some (T2 db b) ->
  ncols a = 4%nat -> ncols b = 4%nat ->
  xyxy = false \/ inplace = false \/ da = Floating \/ db = Floating ->
  rows a !! i = Some p -> rows b !! j = Some q ->
  length p = 4%nat -> length q = 4%nat ->
  (exists r1 h1 m1 r2 h2 m2 v v',
      bboxes_iou bboxes_a bboxes_b xyxy inplace h = (Ok r1, h1)
      /\ h1 !! r1 = Some (T2 Floating m1)
      /\ bboxes_iou bboxes_b bboxes_a xyxy inplace h = (Ok r2, h2)
      /\ h2 !! r2 = Some (T2 Floating m2)
      /\ entry m1 i j = Some v /\ entry m2 j i = Some v' /\ v == v')
  /\ (exists w w',
        entry (matrix_iou a b) i j = Some w
        /\ entry (matrix_iou b a) j i = Some w' /\ w == w').
Proof.
  intros Ha Hb Hca Hcb Hdt Hp Hq Hlp Hlq.
  apply integral_in_place_off in Hdt.
  pose proof Hdt as Hdt'. rewrite <- integral_in_place_swap in Hdt'.
  split.
  - destruct (bboxes_iou_returns h bboxes_a bboxes_b da db a b xyxy inplace
                Ha Hb Hca Hcb Hdt) as (r1 & h1 & Hrun1 & _ & _ & Hr1).
    destruct (bboxes_iou_returns h bboxes_b bboxes_a db da b a xyxy inplace
                Hb Ha Hcb Hca Hdt') as (r2 & h2 & Hrun2 & _ & _ & Hr2).
    exists r1, h1, (iou_matrix xyxy a b), r2, h2, (iou_matrix xyxy b a),
      (pair_iou xyxy p q), (pair_iou xyxy q p).
    repeat (split; [done |]).
    split; [by apply iou_matrix_entry |].
    split; [by apply iou_matrix_entry |].
    destruct xyxy; [by apply pair_iou_symmetric |].
    rewrite !pair_iou_centre by done.
    apply pair_iou_symmetric.
    + destruct p as [|? [|? [|? [|? [|]]]]]; done.
    + destruct q as [|? [|? [|? [|? [|]]]]]; done.
  - exists (pair_matrix_iou p q), (pair_matrix_iou q p).
    split; [by apply matrix_iou_entry |].
    split; [by apply matrix_iou_entry |].
    destruct p as [|x1 [|y1 [|x2 [|y2 [|]]]]]; try done.
    destruct q as [|u1 [|v1 [|u2 [|v2 [|]]]]]; try done.
    rewrite !pair_matrix_iou_value.
    rewrite (Q.min_comm u2 x2), (Q.max_comm u1 x1),
      (Q.min_comm v2 y2), (Q.max_comm v1 y1).
    apply Qdiv_comp; ring.
Qed.

Lemma iou_transposed_witness :
  let a := mkMat 4 [[0; 0; 10; 10]] in
  let b := mkMat 4 [[5; 5; 15; 15]; [2; 2; 8; 12]] in
  let h : gmap loc (tensor Q) :=
    {[ 1%positive := T2 Floating a; 2%positive := T2 Floating b ]} in
  (exists r1 h1 m1 r2 h2 m2 v v',
      bboxes_iou 1%positive 2%positive true true h = (Ok r1, h1)
      /\ h1 !! r1 = Some (T2 Floating m1)
      /\ bboxes_iou 2%positive 1%positive true true h = (Ok r2, h2)
      /\ h2 !! r2 = Some (T2 Floating m2)
      /\ entry m1 0 1 = Some v /\ entry m2 1 0 = Some v' /\ v == v')
  /\ (exists w w',
        entry (matrix_iou a b) 0 1 = Some w
        /\ entry (matrix_iou b a) 1 0 = Some w' /\ w == w').
Proof.
  intros a b h.
  apply (iou_transposed h 1%positive 2%positive Floating Floating a b
           true true 0%nat 1%nat [0; 0; 10; 10] [2; 2; 8; 12]);
    try reflexivity.
  right. right. left. reflexivity.
Defined.

(** X18: for two non-degenerate corner-form boxes the entry of
    [matrix_iou] is not negative and never exceeds the entry of
    [bboxes_iou] (with [xyxy=True]; either [inplace] setting, two integer
    tensors with [inplace=True] apart): both share the intersection area,
    and [matrix_iou] divides it by a union that is larger by 1e-12 (over
    exact rationals). *)
Theorem matrix_iou_below_bboxes_iou (h : gmap loc (tensor Q))
    (bboxes_a bboxes_b : loc) (da db : dtype) (a b : Mat Q) (inplace : bool)
    (i j : nat) (p q : list Q) :
  h !! bboxes_a = Some (T2 da a) -> h !! bboxes_b = Some (T2 db b) ->
  ncols a = 4%nat -> ncols b = 4%nat ->
  inplace = false \/ da = Floating \/ db = Floating ->
  rows a !! i = Some p -> rows b !! j = Some q ->
  proper_box p -> proper_box q ->
  exists r h' ious v w,
    bboxes_iou bboxes_a bboxes_b true inplace h = (Ok r, h')
    /\ h' !! r = Some (T2 Floating ious)
    /\ entry ious i j = Some v
    /\ entry (matrix_iou a b) i j = Some w
    /\ 0 <= w /\ w <= v.
Proof.
  intros Ha Hb Hca Hcb Hdt Hp Hq Hpp Hpq.
  destruct (bboxes_iou_returns h bboxes_a bboxes_b da db a b true inplace
              Ha Hb Hca Hcb (integral_in_place_corner _ _ _ Hdt))
    as (r & h' & Hrun & _ & _ & Hr).
  exists r, h', (iou_matrix true a b), (pair_iou true p q),
    (pair_matrix_iou p q).
  split; [done |]. split; [done |].
  split; [by apply iou_matrix_entry |].
  split; [by apply matrix_iou_entry |].
  destruct Hpp as (x1 & y1 & x2 & y2 & -> & Hx & Hy).
  destruct Hpq as (u1 & v1 & u2 & v2 & -> & Hu & Hv).
  rewrite pair_iou_value, pair_matrix_iou_value.
  destruct (clamped_gap_bounds x1 u1 x2 u2) as (Hw0 & Hwa & Hwb); [lra.. |].
  destruct (clamped_gap_bounds y1 v1 y2 v2) as (Hh0 & Hha & Hhb); [lra.. |].
  destruct (product_below _ _ _ _ Hw0 Hwa Hh0 Hha) as [Hi0 Hia].
  destruct (product_below _ _ _ _ Hw0 Hwb Hh0 Hhb) as [_ Hib].
  assert (HA : 0 < (x2 - x1) * (y2 - y1)) by (apply Qmult_lt_0_compat; lra).
  assert (HB : 0 < (u2 - u1) * (v2 - v1)) by (apply Qmult_lt_0_compat; lra).
  assert (Heps : 0 < eps) by reflexivity.
  set (I := Qmax (Qmin x2 u2 - Qmax x1 u1) 0
            * Qmax (Qmin y2 v2 - Qmax y1 v1) 0) in *.
  set (U := (x2 - x1) * (y2 - y1) + (u2 - u1) * (v2 - v1) - I).
  assert (HU : 0 < U) by (unfold U; lra).
  split.
  - apply Qle_shift_div_l; lra.
  - apply Qle_shift_div_r; [lra |].
    assert (Ht : 0 <= I / U) by (apply Qle_shift_div_l; lra).
    assert (HtU : I / U * U == I) by (field; lra).
    rewrite Qmult_plus_distr_r, HtU.
    assert (0 <= I / U * eps) by (by apply Qmult_le_0_compat; [| lra]).
    lra.
Qed.

Lemma matrix_iou_below_bboxes_iou_witness :
  let a := mkMat 4 [[0; 0; 10; 10]] in
  let b := mkMat 4 [[5; 5; 15; 15]] in
  let h : gmap loc (tensor Q) :=
    {[ 1%positive := T2 Floating a; 2%positive := T2 Floating b ]} in
  exists r h' ious v w,
    bboxes_iou 1%positive 2%positive true true h = (Ok r, h')
    /\ h' !! r = Some (T2 Floating ious)
    /\ entry ious 0 0 = Some v
    /\ entry (matrix_iou a b) 0 0 = Some w
    /\ 0 <= w /\ w <= v.
Proof.
  intros a b h.
  apply (matrix_iou_below_bboxes_iou h 1%positive 2%positive
           Floating Floating a b true
           0%nat 0%nat [0; 0; 10; 10] [5; 5; 15; 15]);
    try reflexivity.
  - right. left. reflexivity.
  - exists 0, 0, 10, 10. split; [reflexivity | split; reflexivity].
  - exists 5, 5, 15, 15. split; [reflexivity | split; reflexivity].
Defined.

(** X19: [matrix_iou] gives 0, not an undefined quotient, for a box without
    area: if a row of [a] has zero width or zero height and the row of [b]
    is any box with [x1 <= x2] and [y1 <= y2] (the same degenerate box
    included), the denominator is at least 1e-12 and the entry is 0 (over
    exact rationals). *)
Theorem matrix_iou_degenerate (a b : Mat Q) (i j : nat)
    (x1 y1 x2 y2 u1 v1 u2 v2 : Q) :
  rows a !! i = Some [x1; y1; x2; y2] ->
  rows b !! j = Some [u1; v1; u2; v2] ->
  (x1 == x2 /\ y1 <= y2) \/ (y1 == y2 /\ x1 <= x2) ->
  u1 <= u2 -> v1 <= v2 ->
  exists w,
    entry (matrix_iou a b) i j = Some w
    /\ w == 0
    /\ eps <= (x2 - x1) * (y2 - y1) + (u2 - u1) * (v2 - v1) + eps.
Proof.
  intros Hp Hq Hflat Hu Hv.
  exists (pair_matrix_iou [x1; y1; x2; y2] [u1; v1; u2; v2]).
  split; [by apply matrix_iou_entry |].
  assert (HB : 0 <= (u2 - u1) * (v2 - v1))
    by (apply Qmult_le_0_compat; lra).
  assert (HA : (x2 - x1) * (y2 - y1) == 0).
  { destruct Hflat as [[He _] | [He _]]; rewrite He; ring. }
  split; [| rewrite HA; lra].
  rewrite pair_matrix_iou_value.
  assert (HI : Qmax (Qmin x2 u2 - Qmax x1 u1) 0
               * Qmax (Qmin y2 v2 - Qmax y1 v1) 0 == 0).
  { pose proof (Q.le_min_l x2 u2). pose proof (Q.le_max_l x1 u1).
    pose proof (Q.le_min_l y2 v2). pose proof (Q.le_max_l y1 v1).
    destruct Hflat as [[He _] | [He _]].
    - rewrite (Q.max_r (Qmin x2 u2 - Qmax x1 u1) 0) by lra. ring.
    - rewrite (Q.max_r (Qmin y2 v2 - Qmax y1 v1) 0) by lra. ring. }
  rewrite HI. apply Qdiv_0_num.
Qed.

Lemma matrix_iou_degenerate_witness :
  exists w,
    entry (matrix_iou (mkMat 4 [[3; 3; 3; 7]]) (mkMat 4 [[3; 3; 3; 7]])) 0 0
    = Some w
    /\ w == 0
    /\ eps <= (3 - 3) * (7 - 3) + (3 - 3) * (7 - 3) + eps.
Proof.
  apply (matrix_iou_degenerate (mkMat 4 [[3; 3; 3; 7]])
           (mkMat 4 [[3; 3; 3; 7]]) 0%nat 0%nat 3 3 3 7 3 3 3 7);
    try reflexivity; try discriminate.
  left. split; [reflexivity | discriminate].
Defined.
